(** * koryx-serv: request pipeline, rate limiter and resource resolver

    A shallow embedding of [middleware.go] and of the file handler of
    [server.go], together with the parts of the Go standard library they
    call ([strings], [path/filepath], [net], [time], [fmt], [net/http]),
    and the properties of the specification checked against them.

    Conventions.
    - A Go [string] is a Rocq [string] (a sequence of 8-bit bytes); the
      byte-level algorithms run on [list ascii].
    - A Go [int] is a 64-bit integer: a [Z] with its wrap-around written
      out ([wrap64]).
    - A Go [float64] is an IEEE-754 binary64 value: a [spec_float] with
      [prec = 53] and [emax = 1024].
    - A handler is a function from a request and a response writer to the
      response writer after the call; a middleware maps handlers to
      handlers, as in the source.  *)

From Stdlib Require Import ZArith List Ascii String Bool Lia.
From Stdlib Require Import Floats.SpecFloat DecimalString.
From stdpp Require Import base gmap strings list.

Local Open Scope string_scope.
Local Open Scope list_scope.
Local Open Scope Z_scope.

Abbreviation bytes := (list ascii).
Abbreviation length := List.length.

(** Conversions between Go strings and their bytes. *)
Definition to_bytes (s : string) : bytes := list_ascii_of_string s.
Definition of_bytes (b : bytes) : string := string_of_list_ascii b.

(** ** Package [strings] *)

Module GoStrings.

Fixpoint has_prefix (s prefix : bytes) : bool :=
  match prefix, s with
  | [], _ => true
  | _ :: _, [] => false
  | p :: prefix', c :: s' => Ascii.eqb c p && has_prefix s' prefix'
  end.

(** [strings.HasPrefix(s, prefix)] *)
Definition HasPrefix (s prefix : string) : bool :=
  has_prefix (to_bytes s) (to_bytes prefix).

Fixpoint contains (s substr : bytes) : bool :=
  has_prefix s substr ||
  match s with
  | [] => false
  | _ :: s' => contains s' substr
  end.

(** [strings.Contains(s, substr)] *)
Definition Contains (s substr : string) : bool :=
  contains (to_bytes s) (to_bytes substr).

(** [strings.Split(s, sep)] for a one-byte separator, the only use in the
    source ([string(filepath.Separator)]): the fields between the
    separators, empty fields included; never the empty list. *)
Fixpoint split (sep : ascii) (s : bytes) : list bytes :=
  match s with
  | [] => [[]]
  | c :: s' =>
    if Ascii.eqb c sep then [] :: split sep s'
    else match split sep s' with
         | [] => [[c]]
         | f :: fs => (c :: f) :: fs
         end
  end.

Definition Split (s : string) (sep : ascii) : list string :=
  map of_bytes (split sep (to_bytes s)).

(** [strings.IndexByte], [strings.LastIndexByte]: [None] stands for -1. *)
Fixpoint index_byte (s : bytes) (c : ascii) : option nat :=
  match s with
  | [] => None
  | x :: s' =>
    if Ascii.eqb x c then Some 0%nat
    else option_map S (index_byte s' c)
  end.

Fixpoint last_index_byte (s : bytes) (c : ascii) : option nat :=
  match s with
  | [] => None
  | x :: s' =>
    match last_index_byte s' c with
    | Some i => Some (S i)
    | None => if Ascii.eqb x c then Some 0%nat else None
    end
  end.

Definition in_cutset (cutset : bytes) (c : ascii) : bool :=
  existsb (Ascii.eqb c) cutset.

Fixpoint trim_left (s cutset : bytes) : bytes :=
  match s with
  | [] => []
  | c :: s' => if in_cutset cutset c then trim_left s' cutset else s
  end.

Definition trim_right (s cutset : bytes) : bytes :=
  rev (trim_left (rev s) cutset).

(** [strings.Trim(s, cutset)] for a cutset of single-byte characters. *)
Definition Trim (s cutset : string) : string :=
  of_bytes (trim_right (trim_left (to_bytes s) (to_bytes cutset)) (to_bytes cutset)).

(** [strings.Join(elems, sep)] *)
Fixpoint Join (elems : list string) (sep : string) : string :=
  match elems with
  | [] => ""
  | [e] => e
  | e :: rest => e +:+ sep +:+ Join rest sep
  end.

End GoStrings.

(** ** Package [path/filepath] (Unix) *)

Module GoFilepath.

Definition Separator : ascii := "/"%char.

(** [os.IsPathSeparator] *)
Definition IsPathSeparator (c : ascii) : bool := Ascii.eqb c Separator.

Definition is_dot (c : ascii) : bool := Ascii.eqb c "."%char.

(** [r == n || os.IsPathSeparator(path[r])] for the suffix [p = path[r:]]. *)
Definition at_end_or_sep (p : bytes) : bool :=
  match p with
  | [] => true
  | c :: _ => IsPathSeparator c
  end.

(** The inner loop of [Clean] that backs up over the last element:
    [for out.w > dotdot && !os.IsPathSeparator(out.index(out.w)) { out.w-- }]. *)
Fixpoint backtrack (out : bytes) (dotdot w : nat) : nat :=
  match w with
  | O => O
  | S w' =>
    if (dotdot <? w)%nat && negb (IsPathSeparator (nth w out Separator))
    then backtrack out dotdot w'
    else w
  end.

(** [for ; r < n && !os.IsPathSeparator(path[r]); r++ { out.append(path[r]) }]:
    returns the unread suffix and the buffer. *)
Fixpoint copy_element (p out : bytes) : bytes * bytes :=
  match p with
  | [] => ([], out)
  | c :: p' =>
    if IsPathSeparator c then (p, out) else copy_element p' (out ++ [c])
  end.

(** The main loop of [Clean]: [p] is [path[r:]], [out] the bytes written so
    far ([out.w] is its length). Every iteration reads at least one byte,
    so the length of the path is fuel enough ([clean_loop_fuel]). *)
Fixpoint clean_loop (fuel : nat) (rooted : bool) (p out : bytes) (dotdot : nat) : bytes :=
  match fuel with
  | O => out
  | S fuel' =>
    match p with
    | [] => out
    | c :: p1 =>
      if IsPathSeparator c then
        (* empty path element *)
        clean_loop fuel' rooted p1 out dotdot
      else if is_dot c && at_end_or_sep p1 then
        (* . element *)
        clean_loop fuel' rooted p1 out dotdot
      else if is_dot c && is_dot (hd Separator p1) && at_end_or_sep (tl p1) then
        (* .. element: remove to last separator *)
        let p2 := tl p1 in
        if (dotdot <? length out)%nat then
          let w := backtrack out dotdot (length out - 1) in
          clean_loop fuel' rooted p2 (firstn w out) dotdot
        else if negb rooted then
          let out1 := if (0 <? length out)%nat then out ++ [Separator] else out in
          let out2 := out1 ++ ["."%char; "."%char] in
          clean_loop fuel' rooted p2 out2 (length out2)
        else
          clean_loop fuel' rooted p2 out dotdot
      else
        (* real path element: add slash if needed, copy element *)
        let out1 :=
          if (rooted && negb (length out =? 1)%nat) || (negb rooted && negb (length out =? 0)%nat)
          then out ++ [Separator] else out in
        let '(rest, out2) := copy_element p out1 in
        clean_loop fuel' rooted rest out2 dotdot
    end
  end.

Definition clean (path : bytes) : bytes :=
  match path with
  | [] => ["."%char]
  | c :: p1 =>
    let rooted := IsPathSeparator c in
    let out :=
      if rooted then clean_loop (length path) true p1 [Separator] 1
      else clean_loop (length path) false path [] 0 in
    if (length out =? 0)%nat then ["."%char] else out
  end.

(** [filepath.Clean(path)] *)
Definition Clean (path : string) : string := of_bytes (clean (to_bytes path)).

(** [filepath.Join(a, b)]: the first non-empty element onwards, joined by
    the separator and cleaned; [""] when both are empty. *)
Definition join2 (a b : bytes) : bytes :=
  match a, b with
  | [], [] => []
  | [], _ => clean b
  | _, _ => clean (a ++ Separator :: b)
  end.

Definition Join (a b : string) : string := of_bytes (join2 (to_bytes a) (to_bytes b)).

(** [filepath.IsAbs(path)] *)
Definition IsAbs (path : string) : bool := GoStrings.HasPrefix path "/".

End GoFilepath.

(** ** Package [net] *)

Module GoNet.

Definition slice (s : bytes) (lo hi : nat) : bytes := firstn (hi - lo) (skipn lo s).

Definition found (o : option nat) : bool :=
  match o with Some _ => true | None => false end.

Definition missingPort := "missing port in address".
Definition tooManyColons := "too many colons in address".

(** [net.SplitHostPort(hostport)]: [inl (host, port)], or [inr why] for an
    [AddrError]. *)
Definition split_host_port (hostport : bytes) : (bytes * bytes) + string :=
  (* The port starts after the last colon. *)
  match GoStrings.last_index_byte hostport ":"%char with
  | None => inr missingPort
  | Some i =>
    let check (host : bytes) (j k : nat) :=
      if found (GoStrings.index_byte (skipn j hostport) "["%char) then
        inr "unexpected '[' in address"
      else if found (GoStrings.index_byte (skipn k hostport) "]"%char) then
        inr "unexpected ']' in address"
      else inl (host, skipn (i + 1) hostport) in
    if Ascii.eqb (hd "000"%char hostport) "["%char then
      (* Expect the first ']' just before the last ':'. *)
      match GoStrings.index_byte hostport "]"%char with
      | None => inr "missing ']' in address"
      | Some end_ =>
        if (end_ + 1 =? length hostport)%nat then
          (* There can't be a ':' behind the ']' now. *)
          inr missingPort
        else if (end_ + 1 =? i)%nat then
          (* The expected result. *)
          check (slice hostport 1 end_) 1%nat (end_ + 1)%nat
        else if Ascii.eqb (nth (end_ + 1) hostport "000"%char) ":"%char then
          inr tooManyColons
        else inr missingPort
      end
    else
      let host := firstn i hostport in
      if found (GoStrings.index_byte host ":"%char) then inr tooManyColons
      else check host 0%nat 0%nat
  end.

Definition SplitHostPort (hostport : string) : (string * string) + string :=
  match split_host_port (to_bytes hostport) with
  | inl (host, port) => inl (of_bytes host, of_bytes port)
  | inr why => inr why
  end.

End GoNet.

(** ** Machine integers and [float64] *)

Definition min_int : Z := - 2 ^ 63.
Definition max_int : Z := 2 ^ 63 - 1.

(** Two's-complement wrap-around of 64-bit [int] arithmetic. *)
Definition wrap64 (z : Z) : Z := (z + 2 ^ 63) mod 2 ^ 64 - 2 ^ 63.

Definition in_int_range (z : Z) : bool := (min_int <=? z) && (z <=? max_int).

Module GoFloat64.

Definition prec : Z := 53.
Definition emax : Z := 1024.

(** [float64(z)] for an integer [z]: rounded to nearest, ties to even. *)
Definition of_int (z : Z) : spec_float := binary_normalize prec emax z 0 false.

Definition add : spec_float -> spec_float -> spec_float := SFadd prec emax.
Definition mul : spec_float -> spec_float -> spec_float := SFmul prec emax.
Definition div : spec_float -> spec_float -> spec_float := SFdiv prec emax.

(** The integer part of a finite value, rounded toward zero; [None] for
    infinities and NaN. *)
Definition trunc (f : spec_float) : option Z :=
  match f with
  | S754_zero _ => Some 0
  | S754_finite s m e =>
    let a := Z.shiftl (Z.pos m) e in Some (if s then - a else a)
  | _ => None
  end.

(** The greatest integer below a finite value. *)
Definition floor (f : spec_float) : option Z :=
  match f with
  | S754_zero _ => Some 0
  | S754_finite s m e => Some (Z.shiftl (if s then Z.neg m else Z.pos m) e)
  | _ => None
  end.

(** [int(f)]: truncation toward zero. Go leaves the result open when the
    value does not fit; this is what amd64 yields (CVTTSD2SQ gives the
    integer indefinite value, the smallest [int64]). *)
Definition to_int (f : spec_float) : Z :=
  match trunc f with
  | Some z => if in_int_range z then z else min_int
  | None => min_int
  end.

End GoFloat64.

(** ** Package [time] *)

Module GoTime.

(** A [Duration] is a count of nanoseconds. *)
Definition Nanosecond : Z := 1.
Definition Second : Z := 1000000000 * Nanosecond.
Definition Minute : Z := 60 * Second.

Definition minDuration : Z := min_int.
Definition maxDuration : Z := max_int.

(** [d.Minutes()]:
    [min := d / Minute; nsec := d % Minute;
     return float64(min) + float64(nsec)/(60*1e9)]. *)
Definition Minutes (d : Z) : spec_float :=
  let min := Z.quot d Minute in
  let nsec := Z.rem d Minute in
  GoFloat64.add (GoFloat64.of_int min)
                (GoFloat64.div (GoFloat64.of_int nsec) (GoFloat64.of_int 60000000000)).

(** A [Time] taken by [time.Now()] is its reading of the monotonic clock,
    in nanoseconds; [t.Sub(u)] is the difference of the readings,
    saturated to the range of [Duration]. *)
Definition Sub (t u : Z) : Z :=
  let d := t - u in
  if maxDuration <? d then maxDuration
  else if d <? minDuration then minDuration
  else d.

End GoTime.

(** ** Package [fmt] and [strconv] *)

Module GoFmt.

Definition hex_digit (n : Z) : ascii :=
  if n <? 10 then ascii_of_N (Z.to_N (48 + n)) else ascii_of_N (Z.to_N (87 + n)).

Fixpoint hex_digits (fuel : nat) (n : Z) (acc : string) : string :=
  match fuel with
  | O => acc
  | S fuel' =>
    let acc' := String (hex_digit (n mod 16)) acc in
    if n <? 16 then acc' else hex_digits fuel' (n / 16) acc'
  end.

(** The verb [%x] applied to an integer: lower-case hexadecimal, a minus
    sign before the digits of a negative number. *)
Definition verb_x (z : Z) : string :=
  let digits := hex_digits (S (Z.to_nat (Z.log2 (Z.abs z)))) (Z.abs z) "" in
  if z <? 0 then String "-"%char digits else digits.

(** [strconv.Itoa] *)
Definition Itoa (z : Z) : string := DecimalString.NilZero.string_of_int (Z.to_int z).

End GoFmt.

(** ** Package [net/http] *)

Module GoHttp.

Definition in_range (lo hi c : ascii) : bool :=
  (N.leb (N_of_ascii lo) (N_of_ascii c)) && (N.leb (N_of_ascii c) (N_of_ascii hi)).

Definition is_lower (c : ascii) : bool := in_range "a" "z" c.
Definition is_upper (c : ascii) : bool := in_range "A" "Z" c.

(** [textproto.validHeaderFieldByte]: the token characters of RFC 7230. *)
Definition validHeaderFieldByte (c : ascii) : bool :=
  is_lower c || is_upper c || in_range "0" "9" c ||
  existsb (Ascii.eqb c) (to_bytes "!#$%&'*+-.^_`|~").

Definition to_upper (c : ascii) : ascii := ascii_of_N (N_of_ascii c - 32).
Definition to_lower (c : ascii) : ascii := ascii_of_N (N_of_ascii c + 32).

Fixpoint canonical (upper : bool) (a : bytes) : bytes :=
  match a with
  | [] => []
  | c :: a' =>
    let c' := if upper && is_lower c then to_upper c
              else if negb upper && is_upper c then to_lower c
              else c in
    c' :: canonical (Ascii.eqb c' "-") a'
  end.

(** [textproto.CanonicalMIMEHeaderKey]: the first letter and every letter
    after a hyphen in upper case, the others in lower case; a key with a
    byte that is not a token character is returned unchanged. *)
Definition CanonicalMIMEHeaderKey (s : string) : string :=
  if forallb validHeaderFieldByte (to_bytes s) then of_bytes (canonical true (to_bytes s))
  else s.

(** [http.Header]: a map from canonical keys to their values. *)
Definition Header_Get (h : gmap string (list string)) (key : string) : string :=
  match h !! CanonicalMIMEHeaderKey key with
  | Some (v :: _) => v
  | _ => ""
  end.

Definition Header_Set (h : gmap string (list string)) (key value : string)
  : gmap string (list string) :=
  <[CanonicalMIMEHeaderKey key := [value]]> h.

Definition Header_Del (h : gmap string (list string)) (key : string)
  : gmap string (list string) :=
  delete (CanonicalMIMEHeaderKey key) h.

(** The fields of [http.Request] the handlers read. *)
Record Request := {
  Method : string;
  URL_Path : string;
  ReqHeader : gmap string (list string);
  RemoteAddr : string;
}.

Definition set_URL_Path (r : Request) (path : string) : Request :=
  {| Method := Method r; URL_Path := path; ReqHeader := ReqHeader r;
     RemoteAddr := RemoteAddr r |}.

(** What was written to the body: bytes as they are, or the gzip stream
    of some data at some compression level. *)
Inductive chunk : Type :=
| Raw (data : string)
| Gzipped (level : Z) (data : string).

(** The response under construction, as [httptest.ResponseRecorder]
    keeps it. *)
Record Response := {
  Code : Z;
  HeaderMap : gmap string (list string);
  Body : list chunk;
  wroteHeader : bool;
}.

(** [httptest.NewRecorder()] *)
Definition NewRecorder : Response :=
  {| Code := 200; HeaderMap := ∅; Body := []; wroteHeader := false |}.

(** An [http.ResponseWriter]: the response itself, or the
    [gzipResponseWriter] of [middleware.go] around a writer, holding the
    bytes handed to its [gzip.Writer] that are not yet flushed. *)
Inductive ResponseWriter : Type :=
| Plain (resp : Response)
| gzipResponseWriter (inner : ResponseWriter) (level : Z) (pending : string).

Definition resp_WriteHeader (code : Z) (resp : Response) : Response :=
  if wroteHeader resp then resp
  else {| Code := code; HeaderMap := HeaderMap resp; Body := Body resp;
          wroteHeader := true |}.

Definition resp_Write (c : chunk) (resp : Response) : Response :=
  let resp := resp_WriteHeader 200 resp in
  {| Code := Code resp; HeaderMap := HeaderMap resp; Body := Body resp ++ [c];
     wroteHeader := wroteHeader resp |}.

Definition resp_map_header (f : gmap string (list string) -> gmap string (list string))
           (resp : Response) : Response :=
  {| Code := Code resp; HeaderMap := f (HeaderMap resp); Body := Body resp;
     wroteHeader := wroteHeader resp |}.

(** The response behind a writer. *)
Fixpoint underlying (w : ResponseWriter) : Response :=
  match w with
  | Plain resp => resp
  | gzipResponseWriter inner _ _ => underlying inner
  end.

(** A method the wrapper inherits from the embedded writer. *)
Fixpoint on_response (f : Response -> Response) (w : ResponseWriter) : ResponseWriter :=
  match w with
  | Plain resp => Plain (f resp)
  | gzipResponseWriter inner level pending =>
    gzipResponseWriter (on_response f inner) level pending
  end.

(** [w.Header().Set(key, value)], [w.Header().Del(key)], [w.WriteHeader(code)] *)
Definition SetHeader (key value : string) (w : ResponseWriter) : ResponseWriter :=
  on_response (resp_map_header (fun h => Header_Set h key value)) w.

Definition DelHeader (key : string) (w : ResponseWriter) : ResponseWriter :=
  on_response (resp_map_header (fun h => Header_Del h key)) w.

Definition WriteHeader (code : Z) (w : ResponseWriter) : ResponseWriter :=
  on_response (resp_WriteHeader code) w.

(** [w.Write(b)]: [gzipResponseWriter.Write] hands the bytes to the gzip
    writer. *)
Definition Write (b : string) (w : ResponseWriter) : ResponseWriter :=
  match w with
  | Plain resp => Plain (resp_Write (Raw b) resp)
  | gzipResponseWriter inner level pending =>
    gzipResponseWriter inner level (pending +:+ b)
  end.

(** [gz.Close()] once the wrapped handler is back: the gzip stream goes to
    the writer underneath, which is what the caller holds. *)
Definition gzip_Close (w : ResponseWriter) : ResponseWriter :=
  match w with
  | Plain resp => Plain resp
  | gzipResponseWriter inner level pending =>
    on_response (resp_Write (Gzipped level pending)) inner
  end.

(** [gzip.NewWriterLevel] accepts [HuffmanOnly] (-2) to [BestCompression] (9). *)
Definition gzip_valid_level (level : Z) : bool := (-2 <=? level) && (level <=? 9).

Definition StatusNoContent : Z := 204.
Definition StatusNotModified : Z := 304.
Definition StatusForbidden : Z := 403.
Definition StatusNotFound : Z := 404.
Definition StatusTooManyRequests : Z := 429.
Definition StatusInternalServerError : Z := 500.

(** [http.StatusText] on the codes the handlers use. *)
Definition StatusText (code : Z) : string :=
  if code =? 403 then "Forbidden"
  else if code =? 404 then "Not Found"
  else if code =? 500 then "Internal Server Error"
  else "".

Definition newline : string := String (ascii_of_nat 10) "".

(** [http.Error(w, error, code)] *)
Definition Error (w : ResponseWriter) (error : string) (code : Z) : ResponseWriter :=
  let w := DelHeader "Content-Length" w in
  let w := SetHeader "Content-Type" "text/plain; charset=utf-8" w in
  let w := SetHeader "X-Content-Type-Options" "nosniff" w in
  let w := WriteHeader code w in
  Write (error +:+ newline) w.

(** [http.Handler]: the writer after [ServeHTTP(w, r)]. *)
Definition Handler : Type := Request -> ResponseWriter -> ResponseWriter.

End GoHttp.

Import GoHttp.

(** * middleware.go *)

Definition Middleware : Type := Handler -> Handler.

(** [Chain]: [for i := len(middlewares) - 1; i >= 0; i-- { h = middlewares[i](h) }] *)
Definition Chain (h : Handler) (middlewares : list Middleware) : Handler :=
  fold_right (fun m h => m h) h middlewares.

(** The loop of [BlockHiddenFilesMiddleware] over the parts of the path:
    [true] when it returns with 403. *)
Fixpoint hidden_part (parts : list string) : bool :=
  match parts with
  | [] => false
  | part :: rest =>
    if GoStrings.HasPrefix part "." && negb (String.eqb part ".") && negb (String.eqb part "..")
    then true
    else hidden_part rest
  end.

Definition BlockHiddenFilesMiddleware (rootDir : string) : Middleware :=
  fun next r w =>
    let parts := GoStrings.Split (GoFilepath.Clean (URL_Path r)) GoFilepath.Separator in
    if hidden_part parts then Error w "403 Forbidden" StatusForbidden
    else next r w.

Definition PathTraversalMiddleware (rootDir : string) : Middleware :=
  fun next r w =>
    let cleanPath := GoFilepath.Clean (URL_Path r) in
    if GoStrings.Contains cleanPath ".." then Error w "403 Forbidden" StatusForbidden
    else next (set_URL_Path r cleanPath) w.

Record CORSConfig := {
  CORS_Enabled : bool;
  AllowedOrigins : list string;
  AllowedMethods : list string;
  AllowedHeaders : list string;
  AllowCredentials : bool;
  MaxAge : Z;
}.

(** The loop of [CORSMiddleware] that decides [allowed]. *)
Fixpoint origin_allowed (allowedOrigins : list string) (origin : string) : bool :=
  match allowedOrigins with
  | [] => false
  | allowedOrigin :: rest =>
    if String.eqb allowedOrigin "*" || String.eqb allowedOrigin origin then true
    else origin_allowed rest origin
  end.

Definition bare_wildcard (allowedOrigins : list string) : bool :=
  match allowedOrigins with
  | [o] => String.eqb o "*"
  | _ => false
  end.

Definition cors_headers (config : CORSConfig) (origin : string) (w : ResponseWriter)
  : ResponseWriter :=
  let w := if bare_wildcard (AllowedOrigins config)
           then SetHeader "Access-Control-Allow-Origin" "*" w
           else SetHeader "Access-Control-Allow-Origin" origin w in
  let w := if (0 <? length (AllowedMethods config))%nat
           then SetHeader "Access-Control-Allow-Methods"
                          (GoStrings.Join (AllowedMethods config) ", ") w
           else w in
  let w := if (0 <? length (AllowedHeaders config))%nat
           then SetHeader "Access-Control-Allow-Headers"
                          (GoStrings.Join (AllowedHeaders config) ", ") w
           else w in
  let w := if AllowCredentials config
           then SetHeader "Access-Control-Allow-Credentials" "true" w
           else w in
  if 0 <? MaxAge config
  then SetHeader "Access-Control-Max-Age" (GoFmt.Itoa (MaxAge config)) w
  else w.

Definition CORSMiddleware (config : CORSConfig) : Middleware :=
  fun next r w =>
    if negb (CORS_Enabled config) then next r w
    else
      let origin := Header_Get (ReqHeader r) "Origin" in
      let allowed := origin_allowed (AllowedOrigins config) origin in
      let w := if allowed then cors_headers config origin w else w in
      (* Handle preflight *)
      if String.eqb (Method r) "OPTIONS" then WriteHeader StatusNoContent w
      else next r w.

(** ** The rate limiter *)

Record RateLimitConfig := {
  RL_Enabled : bool;
  RequestsPerIP : Z;  (* requests per minute *)
  BurstSize : Z;
}.

Record visitor := {
  lastSeen : Z;  (* time.Time: reading of the monotonic clock, in ns *)
  tokens : Z;
}.

(** [RateLimiter]: the map holds one [*visitor] per key, allocated by
    [allow] for that key alone, so no two keys share a visitor and the map
    of pointers is a map of values. The mutex makes [allow] and a sweep of
    [cleanupVisitors] atomic steps on this state. *)
Record RateLimiter := {
  visitors : gmap string visitor;
  config : RateLimitConfig;
}.

Definition NewRateLimiter (config : RateLimitConfig) : RateLimiter :=
  {| visitors := ∅; config := config |}.

Definition set_visitors (rl : RateLimiter) (vs : gmap string visitor) : RateLimiter :=
  {| visitors := vs; config := config rl |}.

(** The [capacity] local of [allow]. *)
Definition capacity (config : RateLimitConfig) : Z :=
  let capacity := BurstSize config in
  let capacity := if capacity <=? 0 then RequestsPerIP config else capacity in
  if capacity <=? 0 then 1 else capacity.

(** [elapsed.Minutes() * float64(rl.config.RequestsPerIP)] *)
Definition refill_product (config : RateLimitConfig) (elapsed : Z) : spec_float :=
  GoFloat64.mul (GoTime.Minutes elapsed) (GoFloat64.of_int (RequestsPerIP config)).

(** [tokensToAdd := int(elapsed.Minutes() * float64(rl.config.RequestsPerIP))] *)
Definition tokensToAdd (config : RateLimitConfig) (elapsed : Z) : Z :=
  GoFloat64.to_int (refill_product config elapsed).

(** [rl.allow(ip)] when [time.Now()] returns [now]: the result and the
    limiter afterwards. *)
Definition allow (rl : RateLimiter) (ip : string) (now : Z) : bool * RateLimiter :=
  let capacity := capacity (config rl) in
  match visitors rl !! ip with
  | None =>
    let initialTokens := capacity - 1 in
    let initialTokens := if initialTokens <? 0 then 0 else initialTokens in
    (true, set_visitors rl (<[ip := {| lastSeen := now; tokens := initialTokens |}]> (visitors rl)))
  | Some v =>
    (* Refill tokens based on elapsed time *)
    let elapsed := GoTime.Sub now (lastSeen v) in
    let tokens := wrap64 (tokens v + tokensToAdd (config rl) elapsed) in
    let tokens := if capacity <? tokens then capacity else tokens in
    if 0 <? tokens then
      (true, set_visitors rl (<[ip := {| lastSeen := now; tokens := wrap64 (tokens - 1) |}]> (visitors rl)))
    else
      (false, set_visitors rl (<[ip := {| lastSeen := now; tokens := tokens |}]> (visitors rl)))
  end.

(** One pass of the loop of [cleanupVisitors], run when [time.Now()] is [now]:
    [if time.Since(v.lastSeen) > 3*time.Minute { delete(rl.visitors, ip) }]. *)
Definition stale (now : Z) (v : visitor) : bool :=
  3 * GoTime.Minute <? GoTime.Sub now (lastSeen v).

Definition cleanupVisitors (rl : RateLimiter) (now : Z) : RateLimiter :=
  set_visitors rl (filter (fun kv => stale now (snd kv) = false) (visitors rl)).

(** The operations that reach a limiter, and a run of them. *)
Inductive rl_op : Type :=
| OpAllow (ip : string) (now : Z)
| OpSweep (now : Z).

Definition rl_step (rl : RateLimiter) (op : rl_op) : RateLimiter :=
  match op with
  | OpAllow ip now => snd (allow rl ip now)
  | OpSweep now => cleanupVisitors rl now
  end.

Definition rl_run (rl : RateLimiter) (ops : list rl_op) : RateLimiter :=
  fold_left rl_step ops rl.

(** ** The IP filter *)

Definition clientIP (remoteAddr : string) : string :=
  match GoNet.SplitHostPort remoteAddr with
  | inr _ => GoStrings.Trim remoteAddr "[]"
  | inl (host, _) => host
  end.

(** [for _, x := range list { if ip == x { ... } }] *)
Fixpoint ip_listed (ip : string) (list : list string) : bool :=
  match list with
  | [] => false
  | x :: rest => if String.eqb ip x then true else ip_listed ip rest
  end.

Definition IPFilterMiddleware (whitelist blacklist : list string) : Middleware :=
  fun next r w =>
    let ip := clientIP (RemoteAddr r) in
    (* Check blacklist first *)
    if ip_listed ip blacklist then Error w "403 Forbidden" StatusForbidden
    else
      (* If whitelist exists, check whether IP is allowed *)
      if (0 <? length whitelist)%nat && negb (ip_listed ip whitelist)
      then Error w "403 Forbidden" StatusForbidden
      else next r w.

(** ** Compression *)

Definition CompressionMiddleware (level : Z) : Middleware :=
  fun next r w =>
    (* Check whether the client accepts gzip *)
    if negb (GoStrings.Contains (Header_Get (ReqHeader r) "Accept-Encoding") "gzip")
    then next r w
    else
      let w := SetHeader "Content-Encoding" "gzip" w in
      if negb (gzip_valid_level level) then next r w
      else
        let gzw := gzipResponseWriter w level "" in
        gzip_Close (next r gzw).

(** * server.go *)

Record FileInfo := {
  ModTimeUnix : Z;  (* info.ModTime().Unix() *)
  FileSize : Z;  (* info.Size() *)
  IsDir : bool;
}.

(** The outcome of [os.Stat]. *)
Inductive StatResult : Type :=
| StatOk (info : FileInfo)
| StatNotExist
| StatFailed.

Record ServerConfig := {
  RootDir : string;
  SPAMode : bool;
  SPAIndex : string;
  IndexFiles : list string;
  DirectoryListing : bool;
  EnableETags : bool;
  CustomErrorPages : gmap string string;
}.

Definition quote : ascii := ascii_of_nat 34.

(** [fmt.Sprintf(`"%x-%x"`, info.ModTime().Unix(), info.Size())] *)
Definition etag_of (info : FileInfo) : string :=
  String quote (GoFmt.verb_x (ModTimeUnix info) +:+ "-" +:+ GoFmt.verb_x (FileSize info)
                +:+ String quote "").

Section Resolver.

(** The file system and the parts of the standard library and of the
    listing page that read it. *)
Variable os_Stat : string -> StatResult.
Variable http_ServeFile : ResponseWriter -> Request -> string -> ResponseWriter.
Variable serveDirectoryListing : ResponseWriter -> Request -> string -> ResponseWriter.

Variable cfg : ServerConfig.

Definition serveFile (w : ResponseWriter) (r : Request) (path : string) (info : FileInfo)
  : ResponseWriter :=
  if EnableETags cfg then
    let etag := etag_of info in
    let w := SetHeader "ETag" etag w in
    (* Check If-None-Match *)
    let match_ := Header_Get (ReqHeader r) "If-None-Match" in
    if negb (String.eqb match_ "") && String.eqb match_ etag
    then WriteHeader StatusNotModified w
    else http_ServeFile w r path
  else http_ServeFile w r path.

Definition serveError (w : ResponseWriter) (r : Request) (status : Z) : ResponseWriter :=
  match CustomErrorPages cfg !! GoFmt.Itoa status with
  | Some errorPage =>
    let errorPath := GoFilepath.Join (RootDir cfg) errorPage in
    match os_Stat errorPath with
    | StatOk _ => http_ServeFile w r errorPath
    | _ => Error w (StatusText status) status
    end
  | None => Error w (StatusText status) status
  end.

Definition serveSPAIndex (w : ResponseWriter) (r : Request) : ResponseWriter :=
  let indexPath := GoFilepath.Join (RootDir cfg) (SPAIndex cfg) in
  match os_Stat indexPath with
  | StatOk info => serveFile w r indexPath info
  | _ => serveError w r StatusNotFound
  end.

Fixpoint serveIndexFiles (w : ResponseWriter) (r : Request) (path : string)
         (indexFiles : list string) : option ResponseWriter :=
  match indexFiles with
  | [] => None
  | indexFile :: rest =>
    let indexPath := GoFilepath.Join path indexFile in
    match os_Stat indexPath with
    | StatOk info =>
      if negb (IsDir info) then Some (serveFile w r indexPath info)
      else serveIndexFiles w r path rest
    | _ => serveIndexFiles w r path rest
    end
  end.

Definition serveDirectory (w : ResponseWriter) (r : Request) (path : string) : ResponseWriter :=
  match serveIndexFiles w r path (IndexFiles cfg) with
  | Some w' => w'
  | None =>
    if DirectoryListing cfg then serveDirectoryListing w r path
    else serveError w r StatusForbidden
  end.

(** The path [createFileHandler] resolves a request to:
    [filepath.Join(s.config.Server.RootDir, filepath.Clean(r.URL.Path))]. *)
Definition resolvePath (urlPath : string) : string :=
  GoFilepath.Join (RootDir cfg) (GoFilepath.Clean urlPath).

Definition createFileHandler : Handler :=
  fun r w =>
    let path := resolvePath (URL_Path r) in
    match os_Stat path with
    | StatNotExist =>
      if SPAMode cfg then serveSPAIndex w r else serveError w r StatusNotFound
    | StatFailed => serveError w r StatusInternalServerError
    | StatOk info =>
      if IsDir info then serveDirectory w r path else serveFile w r path info
    end.

End Resolver.

(** * Properties *)

(** ** Responses *)

(** A middleware answers a request itself when the response does not depend
    on the next handler; it forwards the request when the response is the
    next handler's. *)
Definition answers (m : Middleware) (r : Request) (w w' : ResponseWriter) : Prop :=
  forall next : Handler, m next r w = w'.

Definition forwards (m : Middleware) (r : Request) (w : ResponseWriter)
           (r' : Request) (w' : ResponseWriter) : Prop :=
  forall next : Handler, m next r w = next r' w'.

Definition rejects_403 (m : Middleware) (r : Request) (w : ResponseWriter) : Prop :=
  answers m r w (Error w "403 Forbidden" StatusForbidden).

(** The number of body chunks written or pending behind a writer. *)
Fixpoint written (w : ResponseWriter) : nat :=
  match w with
  | Plain resp => length (Body resp)
  | gzipResponseWriter inner _ pending => (String.length pending + written inner)%nat
  end.

Lemma underlying_on_response f w : underlying (on_response f w) = f (underlying w).
Proof. induction w as [resp | inner IH level pending]; simpl; auto. Qed.

Lemma written_on_response f w :
  (forall resp, Body (f resp) = Body resp) ->
  written (on_response f w) = written w.
Proof.
  intros Hf. induction w as [resp | inner IH level pending]; simpl.
  - now rewrite Hf.
  - now rewrite IH.
Qed.

Lemma resp_WriteHeader_Body code resp : Body (resp_WriteHeader code resp) = Body resp.
Proof. unfold resp_WriteHeader. now destruct (wroteHeader resp). Qed.

Lemma string_length_app (a b : string) :
  String.length (a +:+ b) = (String.length a + String.length b)%nat.
Proof. induction a as [| c a IH]; simpl; [reflexivity | now rewrite IH]. Qed.

Lemma written_Write b w :
  b <> "" -> (written w < written (Write b w))%nat.
Proof.
  intros Hb. destruct w as [resp | inner level pending]; simpl.
  - rewrite length_app, resp_WriteHeader_Body. simpl. lia.
  - rewrite string_length_app. destruct b; [congruence | simpl; lia].
Qed.

Lemma written_Error w error code : (written w < written (Error w error code))%nat.
Proof.
  unfold Error.
  eapply Nat.le_lt_trans; [| apply written_Write].
  - unfold WriteHeader, SetHeader, DelHeader.
    rewrite !written_on_response; auto using resp_WriteHeader_Body.
  - destruct error; simpl; discriminate.
Qed.

Lemma Error_changes w error code : Error w error code <> w.
Proof.
  intros H. pose proof (written_Error w error code) as Hlt. rewrite H in Hlt. lia.
Qed.

(** On a response that is not yet started, [http.Error] sets the status. *)
Lemma Error_Code w error code :
  wroteHeader (underlying w) = false ->
  Code (underlying (Error w error code)) = code.
Proof.
  intros Hfresh. unfold Error, Write, WriteHeader, SetHeader, DelHeader.
  match goal with
  | |- context [match ?x with Plain _ => _ | _ => _ end] => remember x as w1 eqn:Hw1
  end.
  assert (Hc : Code (underlying w1) = code /\ wroteHeader (underlying w1) = true).
  { subst w1. rewrite !underlying_on_response. unfold resp_WriteHeader, resp_map_header.
    simpl. rewrite Hfresh. simpl. auto. }
  destruct Hc as [Hc Hw]. clear Hw1.
  destruct w1 as [resp | inner level pending]; simpl in *; auto.
  unfold resp_WriteHeader. rewrite Hw. simpl. exact Hc.
Qed.

(** A handler that leaves the response as it is, to tell a forwarded
    request from an answered one. *)
Definition idle : Handler := fun _ w => w.

Lemma rejects_not_forwards m r w r' :
  rejects_403 m r w -> forwards m r w r' w -> False.
Proof.
  intros Hrej Hfwd. specialize (Hrej idle). specialize (Hfwd idle).
  rewrite Hfwd in Hrej. unfold idle in Hrej. symmetry in Hrej.
  exact (Error_changes _ _ _ Hrej).
Qed.

(** ** Hidden files *)

Definition is_hidden (part : string) : Prop :=
  GoStrings.HasPrefix part "." = true /\ part <> "." /\ part <> "..".

Lemma hidden_part_spec parts :
  hidden_part parts = true <-> exists part, In part parts /\ is_hidden part.
Proof.
  unfold is_hidden. induction parts as [| p parts IH]; simpl.
  - split; [discriminate | intros (? & [] & _)].
  - destruct (GoStrings.HasPrefix p ".") eqn:Hp; simpl.
    + destruct (String.eqb_spec p "."); simpl.
      * rewrite IH. split.
        -- intros (q & Hq & Hh). eauto.
        -- intros (q & [-> | Hq] & Hh); [tauto | eauto].
      * destruct (String.eqb_spec p ".."); simpl.
        -- rewrite IH. split.
           ++ intros (q & Hq & Hh). eauto.
           ++ intros (q & [-> | Hq] & Hh); [tauto | eauto].
        -- split; [| reflexivity]. intros _. exists p. auto.
    + rewrite IH. split.
      * intros (q & Hq & Hh). eauto.
      * intros (q & [-> | Hq] & Hh); [| eauto].
        destruct Hh as [Hh _]. congruence.
Qed.

Definition path_parts (urlPath : string) : list string :=
  GoStrings.Split (GoFilepath.Clean urlPath) GoFilepath.Separator.

(** C7. With hidden-file blocking, a request is answered 403 without the
    next handler being reached exactly when a segment of the cleaned URL
    path starts with a dot and is neither [.] nor [..]; every other request
    is forwarded unchanged. [/index.html] and [/style.css] pass; [/.env],
    [/.git/config] and [/dir/.hidden] are rejected. *)
Theorem hidden_files_rejected rootDir r w :
  (rejects_403 (BlockHiddenFilesMiddleware rootDir) r w
   <-> exists part, In part (path_parts (URL_Path r)) /\ is_hidden part)
  /\ (forwards (BlockHiddenFilesMiddleware rootDir) r w r w
      <-> ~ exists part, In part (path_parts (URL_Path r)) /\ is_hidden part)
  /\ (wroteHeader (underlying w) = false ->
      rejects_403 (BlockHiddenFilesMiddleware rootDir) r w ->
      forall next, Code (underlying (BlockHiddenFilesMiddleware rootDir next r w)) = 403)
  /\ (In (URL_Path r) ["/index.html"; "/style.css"] ->
      forwards (BlockHiddenFilesMiddleware rootDir) r w r w)
  /\ (In (URL_Path r) ["/.env"; "/.git/config"; "/dir/.hidden"] ->
      rejects_403 (BlockHiddenFilesMiddleware rootDir) r w).
Proof.
  assert (Hrej : hidden_part (path_parts (URL_Path r)) = true ->
                 rejects_403 (BlockHiddenFilesMiddleware rootDir) r w).
  { intros H next. unfold BlockHiddenFilesMiddleware. fold (path_parts (URL_Path r)).
    now rewrite H. }
  assert (Hfwd : hidden_part (path_parts (URL_Path r)) = false ->
                 forwards (BlockHiddenFilesMiddleware rootDir) r w r w).
  { intros H next. unfold BlockHiddenFilesMiddleware. fold (path_parts (URL_Path r)).
    now rewrite H. }
  rewrite <- hidden_part_spec.
  destruct (hidden_part (path_parts (URL_Path r))) eqn:Hh.
  - specialize (Hrej eq_refl). clear Hfwd.
    split; [tauto |]. split.
    { split.
      - intros Hf. exfalso. exact (rejects_not_forwards _ _ _ _ Hrej Hf).
      - intros Hn. exfalso. now apply Hn. }
    split.
    { intros Hfresh _ next. rewrite Hrej. now apply Error_Code. }
    split; [| auto].
    intros [Hp | [Hp | []]]; rewrite <- Hp in Hh; vm_compute in Hh; discriminate.
  - specialize (Hfwd eq_refl). clear Hrej.
    split.
    { split; [| discriminate].
      intros Hr. exfalso. exact (rejects_not_forwards _ _ _ _ Hr Hfwd). }
    split.
    { split; [discriminate | auto]. }
    split.
    { intros Hfresh Hr next. rewrite Hr. now apply Error_Code. }
    split; [auto |].
    intros [Hp | [Hp | [Hp | []]]]; rewrite <- Hp in Hh; vm_compute in Hh; discriminate.
Qed.

Definition get_request (urlPath : string) : Request :=
  {| Method := "GET"; URL_Path := urlPath; ReqHeader := ∅; RemoteAddr := "192.168.1.100:1234" |}.

Lemma hidden_files_rejected_witness :
  rejects_403 (BlockHiddenFilesMiddleware ".") (get_request "/.git/config") (Plain NewRecorder).
Proof.
  apply (proj2 (proj2 (proj2 (proj2
    (hidden_files_rejected "." (get_request "/.git/config") (Plain NewRecorder)))))).
  simpl. auto.
Defined.

(** ** Path normalization *)

Lemma PathTraversal_rejects rootDir r w :
  GoStrings.Contains (GoFilepath.Clean (URL_Path r)) ".." = true ->
  rejects_403 (PathTraversalMiddleware rootDir) r w.
Proof. intros H next. unfold PathTraversalMiddleware. now rewrite H. Qed.

Lemma PathTraversal_forwards rootDir r w :
  GoStrings.Contains (GoFilepath.Clean (URL_Path r)) ".." = false ->
  forwards (PathTraversalMiddleware rootDir) r w
           (set_URL_Path r (GoFilepath.Clean (URL_Path r))) w.
Proof. intros H next. unfold PathTraversalMiddleware. now rewrite H. Qed.

(** C3, as the code has it. The normalizer answers 403 without reaching the
    next handler exactly when the cleaned URL path contains two consecutive
    dots anywhere, inside a longer segment too; otherwise it forwards the
    request with the cleaned path as its URL path. *)
Theorem path_traversal_rejected rootDir r w :
  (rejects_403 (PathTraversalMiddleware rootDir) r w
   <-> GoStrings.Contains (GoFilepath.Clean (URL_Path r)) ".." = true)
  /\ (forwards (PathTraversalMiddleware rootDir) r w
               (set_URL_Path r (GoFilepath.Clean (URL_Path r))) w
      <-> GoStrings.Contains (GoFilepath.Clean (URL_Path r)) ".." = false).
Proof.
  destruct (GoStrings.Contains (GoFilepath.Clean (URL_Path r)) "..") eqn:Hc.
  - pose proof (PathTraversal_rejects rootDir r w Hc) as Hrej.
    split; [tauto |]. split; [| discriminate].
    intros Hf. exfalso. exact (rejects_not_forwards _ _ _ _ Hrej Hf).
  - pose proof (PathTraversal_forwards rootDir r w Hc) as Hfwd.
    split; [| tauto]. split; [| discriminate].
    intros Hr. exfalso. exact (rejects_not_forwards _ _ _ _ Hr Hfwd).
Qed.

Lemma path_traversal_rejected_witness :
  rejects_403 (PathTraversalMiddleware ".") (get_request "../secret") (Plain NewRecorder).
Proof.
  apply (proj1 (path_traversal_rejected "." (get_request "../secret") (Plain NewRecorder))).
  reflexivity.
Defined.

(** The property as the specification words it: 403 exactly when a segment of
    the cleaned path is [..]. *)
Definition rejects_dotdot_segments_only (rootDir : string) (r : Request) (w : ResponseWriter)
  : Prop :=
  rejects_403 (PathTraversalMiddleware rootDir) r w
  <-> In ".." (path_parts (URL_Path r)).

(** [/a..b] has the segments [""] and ["a..b"], none of them [..], and is
    answered 403. *)
Lemma path_traversal_counterexample :
  ~ rejects_dotdot_segments_only "." (get_request "/a..b") (Plain NewRecorder).
Proof.
  unfold rejects_dotdot_segments_only. intros [H _].
  assert (Hin : In ".." (path_parts (URL_Path (get_request "/a..b")))).
  { apply H. apply PathTraversal_rejects. reflexivity. }
  vm_compute in Hin. destruct Hin as [Hin | [Hin | []]]; discriminate.
Qed.

(** ** CORS *)

Lemma origin_allowed_spec origins origin :
  origin_allowed origins origin = true <-> In "*" origins \/ In origin origins.
Proof.
  induction origins as [| o origins IH]; simpl.
  - split; [discriminate | tauto].
  - destruct (String.eqb_spec o "*") as [-> | Hw]; simpl; [tauto |].
    destruct (String.eqb_spec o origin) as [-> | Ho]; simpl; [tauto |].
    rewrite IH. split; [tauto |].
    intros [[H | H] | [H | H]]; auto; congruence.
Qed.

Lemma bare_wildcard_spec origins : bare_wildcard origins = true <-> origins = ["*"].
Proof.
  destruct origins as [| o [| o' origins]]; simpl; try (split; [discriminate | congruence]).
  destruct (String.eqb_spec o "*") as [-> | Hw]; split; congruence.
Qed.

Lemma Header_Get_Set h key value key' :
  Header_Get (Header_Set h key value) key' =
  if decide (CanonicalMIMEHeaderKey key = CanonicalMIMEHeaderKey key') then value
  else Header_Get h key'.
Proof.
  unfold Header_Get, Header_Set. rewrite lookup_insert.
  destruct (decide (CanonicalMIMEHeaderKey key = CanonicalMIMEHeaderKey key')); reflexivity.
Qed.

(** The value of a response header of the writer. *)
Definition header_of (w : ResponseWriter) (key : string) : string :=
  Header_Get (HeaderMap (underlying w)) key.

Lemma header_of_SetHeader key value w key' :
  header_of (SetHeader key value w) key' =
  if decide (CanonicalMIMEHeaderKey key = CanonicalMIMEHeaderKey key') then value
  else header_of w key'.
Proof.
  unfold header_of, SetHeader. rewrite underlying_on_response. simpl.
  apply Header_Get_Set.
Qed.

Lemma header_of_WriteHeader code w key :
  header_of (WriteHeader code w) key = header_of w key.
Proof.
  unfold header_of, WriteHeader. rewrite underlying_on_response.
  unfold resp_WriteHeader. now destruct (wroteHeader (underlying w)).
Qed.

Lemma cors_allow_origin config origin w :
  header_of (cors_headers config origin w) "Access-Control-Allow-Origin" =
  if bare_wildcard (AllowedOrigins config) then "*" else origin.
Proof.
  unfold cors_headers.
  repeat match goal with
         | |- context [if ?b then SetHeader _ _ _ else _] => destruct b
         end;
    rewrite ?header_of_SetHeader; reflexivity.
Qed.

Lemma WriteHeader_Code code w :
  wroteHeader (underlying w) = false -> Code (underlying (WriteHeader code w)) = code.
Proof.
  intros H. unfold WriteHeader. rewrite underlying_on_response.
  unfold resp_WriteHeader. now rewrite H.
Qed.

Lemma wroteHeader_SetHeader key value w :
  wroteHeader (underlying (SetHeader key value w)) = wroteHeader (underlying w).
Proof. unfold SetHeader. now rewrite underlying_on_response. Qed.

Lemma Body_SetHeader key value w :
  Body (underlying (SetHeader key value w)) = Body (underlying w).
Proof. unfold SetHeader. now rewrite underlying_on_response. Qed.

Lemma wroteHeader_cors_headers config origin w :
  wroteHeader (underlying (cors_headers config origin w)) = wroteHeader (underlying w).
Proof.
  unfold cors_headers.
  repeat match goal with
         | |- context [if ?b then SetHeader _ _ _ else _] => destruct b
         end;
    rewrite ?wroteHeader_SetHeader; reflexivity.
Qed.

Definition request_origin (r : Request) : string := Header_Get (ReqHeader r) "Origin".

(** The writer after the CORS headers, if any, are set. *)
Definition cors_writer (config : CORSConfig) (r : Request) (w : ResponseWriter) : ResponseWriter :=
  if origin_allowed (AllowedOrigins config) (request_origin r)
  then cors_headers config (request_origin r) w else w.

(** C2, as the code has it. With CORS enabled, the origin of a request is
    allowed exactly when some configured entry is the wildcard or equals
    the origin. When it is allowed the allow-origin header is the wildcard
    for the configuration made of the wildcard alone, and the origin of
    the request otherwise; when it is not, the response writer is left as
    it was. An OPTIONS request is answered 204 without the next handler,
    whatever the origin; any other request is forwarded. *)
Theorem cors_policy config r w :
  CORS_Enabled config = true ->
  (origin_allowed (AllowedOrigins config) (request_origin r) = true
   <-> In "*" (AllowedOrigins config) \/ In (request_origin r) (AllowedOrigins config))
  /\ (origin_allowed (AllowedOrigins config) (request_origin r) = true ->
      header_of (cors_writer config r w) "Access-Control-Allow-Origin" =
      if decide (AllowedOrigins config = ["*"]) then "*" else request_origin r)
  /\ (origin_allowed (AllowedOrigins config) (request_origin r) = false ->
      cors_writer config r w = w)
  /\ (Method r = "OPTIONS" ->
      answers (CORSMiddleware config) r w (WriteHeader StatusNoContent (cors_writer config r w))
      /\ (wroteHeader (underlying w) = false ->
          forall next, Code (underlying (CORSMiddleware config next r w)) = 204))
  /\ (Method r <> "OPTIONS" ->
      forwards (CORSMiddleware config) r w r (cors_writer config r w)).
Proof.
  intros Hen.
  assert (Hm : forall next, CORSMiddleware config next r w =
                 if String.eqb (Method r) "OPTIONS"
                 then WriteHeader StatusNoContent (cors_writer config r w)
                 else next r (cors_writer config r w)).
  { intros next. unfold CORSMiddleware, cors_writer, request_origin. now rewrite Hen. }
  split; [apply origin_allowed_spec |].
  split.
  { intros Ha. unfold cors_writer. rewrite Ha, cors_allow_origin.
    destruct (decide (AllowedOrigins config = ["*"])) as [He | He].
    - now rewrite (proj2 (bare_wildcard_spec _) He).
    - destruct (bare_wildcard (AllowedOrigins config)) eqn:Hb; [| reflexivity].
      apply bare_wildcard_spec in Hb. contradiction. }
  split.
  { intros Ha. unfold cors_writer. now rewrite Ha. }
  split.
  - intros Hopt.
    assert (Ha : answers (CORSMiddleware config) r w
                         (WriteHeader StatusNoContent (cors_writer config r w))).
    { intros next. rewrite Hm, Hopt. reflexivity. }
    split; [exact Ha |].
    intros Hfresh next. rewrite Ha. apply WriteHeader_Code.
    unfold cors_writer. destruct (origin_allowed _ _); [| exact Hfresh].
    now rewrite wroteHeader_cors_headers.
  - intros Hopt next. rewrite Hm.
    destruct (String.eqb_spec (Method r) "OPTIONS"); [contradiction | reflexivity].
Qed.

Definition request_from (method origin : string) : Request :=
  {| Method := method; URL_Path := "/";
     ReqHeader := {[ "Origin" := [origin] ]};
     RemoteAddr := "192.168.1.100:1234" |}.

Definition cors_two_entries : CORSConfig :=
  {| CORS_Enabled := true;
     AllowedOrigins := ["*"; "https://example.com"];
     AllowedMethods := ["GET"; "POST"];
     AllowedHeaders := ["Content-Type"];
     AllowCredentials := true;
     MaxAge := 3600 |}.

Lemma cors_policy_witness :
  Code (underlying (CORSMiddleware cors_two_entries idle
                      (request_from "OPTIONS" "https://evil.com") (Plain NewRecorder))) = 204.
Proof.
  apply (proj2 (proj1 (proj2 (proj2 (proj2
    (cors_policy cors_two_entries (request_from "OPTIONS" "https://evil.com")
                 (Plain NewRecorder) eq_refl)))) eq_refl)).
  reflexivity.
Defined.

(** The property as the specification words it: allowed exactly when the
    origin is one of the configured ones or the configuration is the
    wildcard alone. *)
Definition allowed_iff_listed_or_bare_wildcard (config : CORSConfig) (r : Request) : Prop :=
  origin_allowed (AllowedOrigins config) (request_origin r) = true
  <-> In (request_origin r) (AllowedOrigins config) \/ AllowedOrigins config = ["*"].

(** With the wildcard next to another entry, an origin that is not listed
    is allowed, and echoed in the allow-origin header. *)
Lemma cors_counterexample :
  ~ allowed_iff_listed_or_bare_wildcard cors_two_entries (request_from "GET" "https://evil.com")
  /\ header_of (CORSMiddleware cors_two_entries idle (request_from "GET" "https://evil.com")
                               (Plain NewRecorder))
               "Access-Control-Allow-Origin" = "https://evil.com".
Proof.
  split.
  - unfold allowed_iff_listed_or_bare_wildcard. intros [H _].
    assert (Hor : In (request_origin (request_from "GET" "https://evil.com"))
                     (AllowedOrigins cors_two_entries)
                  \/ AllowedOrigins cors_two_entries = ["*"]).
    { apply H. vm_compute. reflexivity. }
    destruct Hor as [Hin | Heq]; [| discriminate].
    vm_compute in Hin. destruct Hin as [Hin | [Hin | []]]; discriminate.
  - vm_compute. reflexivity.
Qed.

(** ** The IP filter *)

Lemma ip_listed_spec ip l : ip_listed ip l = true <-> In ip l.
Proof.
  induction l as [| x l IH]; simpl.
  - split; [discriminate | tauto].
  - destruct (String.eqb_spec ip x) as [-> | Hne]; [tauto |].
    rewrite IH. split; [tauto |]. intros [H | H]; [congruence | exact H].
Qed.

Definition unparseable (remoteAddr : string) : Prop :=
  exists why, GoNet.SplitHostPort remoteAddr = inr why.

(** C6, as the code has it. The filter decides on the client key: the host
    of the remote address or, when the address does not parse as
    host:port, the address with the brackets at its ends trimmed. The
    request is answered 403 exactly when the key is on the deny-list, or an
    allow-list is configured and the key is not on it; otherwise it is
    forwarded. An address that does not parse is not rejected for that. *)
Theorem ip_filter_decision whitelist blacklist r w :
  (rejects_403 (IPFilterMiddleware whitelist blacklist) r w
   <-> In (clientIP (RemoteAddr r)) blacklist
       \/ (whitelist <> [] /\ ~ In (clientIP (RemoteAddr r)) whitelist))
  /\ (forwards (IPFilterMiddleware whitelist blacklist) r w r w
      <-> ~ In (clientIP (RemoteAddr r)) blacklist
          /\ (whitelist = [] \/ In (clientIP (RemoteAddr r)) whitelist))
  /\ (unparseable (RemoteAddr r) ->
      clientIP (RemoteAddr r) = GoStrings.Trim (RemoteAddr r) "[]").
Proof.
  set (ip := clientIP (RemoteAddr r)).
  assert (Hm : forall next, IPFilterMiddleware whitelist blacklist next r w =
                 if ip_listed ip blacklist || ((0 <? length whitelist)%nat && negb (ip_listed ip whitelist))
                 then Error w "403 Forbidden" StatusForbidden else next r w).
  { intros next. unfold IPFilterMiddleware. fold ip.
    destruct (ip_listed ip blacklist); reflexivity. }
  assert (Hd : ip_listed ip blacklist || ((0 <? length whitelist)%nat && negb (ip_listed ip whitelist)) = true
               <-> In ip blacklist \/ (whitelist <> [] /\ ~ In ip whitelist)).
  { rewrite orb_true_iff, andb_true_iff, negb_true_iff, ip_listed_spec.
    rewrite <- (ip_listed_spec ip whitelist), Nat.ltb_lt.
    assert (Hlen : (0 < length whitelist)%nat <-> whitelist <> []).
    { destruct whitelist; simpl; split; intros H; try lia; congruence. }
    assert (Hneg : ip_listed ip whitelist = false <-> ~ ip_listed ip whitelist = true).
    { destruct (ip_listed ip whitelist); split; congruence. }
    tauto. }
  destruct (ip_listed ip blacklist || ((0 <? length whitelist)%nat && negb (ip_listed ip whitelist)))
    eqn:Hdec.
  - assert (Hrej : rejects_403 (IPFilterMiddleware whitelist blacklist) r w).
    { intros next. now rewrite Hm. }
    pose proof (proj1 Hd eq_refl) as Hyes.
    split; [tauto |]. split.
    + split.
      * intros Hf. exfalso. exact (rejects_not_forwards _ _ _ _ Hrej Hf).
      * intros [Hnb Hw]. exfalso. destruct Hyes as [? | [? ?]]; tauto.
    + intros [why Hwhy]. unfold ip, clientIP. now rewrite Hwhy.
  - assert (Hfwd : forwards (IPFilterMiddleware whitelist blacklist) r w r w).
    { intros next. now rewrite Hm. }
    assert (Hno : ~ (In ip blacklist \/ (whitelist <> [] /\ ~ In ip whitelist))).
    { intros H. apply Hd in H. discriminate. }
    split.
    + split; [| tauto].
      intros Hr. exfalso. exact (rejects_not_forwards _ _ _ _ Hr Hfwd).
    + split.
      * split; [intros _ | auto]. split; [tauto |].
        destruct whitelist; [now left | right].
        rewrite <- ip_listed_spec.
        destruct (ip_listed ip (s :: whitelist)) eqn:Hl; [reflexivity |].
        exfalso. apply Hno. right. split; [discriminate |].
        rewrite <- ip_listed_spec. congruence.
      * intros [why Hwhy]. unfold ip, clientIP. now rewrite Hwhy.
Qed.

Definition request_at (remoteAddr : string) : Request :=
  {| Method := "GET"; URL_Path := "/"; ReqHeader := ∅; RemoteAddr := remoteAddr |}.

Lemma ip_filter_decision_witness :
  rejects_403 (IPFilterMiddleware ["192.168.1.100"] []) (request_at "not-an-address")
              (Plain NewRecorder)
  /\ clientIP "[192.168.1.100" = GoStrings.Trim "[192.168.1.100" "[]".
Proof.
  split.
  - apply (proj1 (ip_filter_decision ["192.168.1.100"] [] (request_at "not-an-address")
                                     (Plain NewRecorder))).
    right. split; [discriminate |]. vm_compute. intros [H | []]. discriminate.
  - apply (proj2 (proj2 (ip_filter_decision [] [] (request_at "[192.168.1.100")
                                            (Plain NewRecorder)))).
    eexists. vm_compute. reflexivity.
Defined.

(** The property as the specification words it: with a filter active, an
    address that does not parse is rejected. *)
Definition fails_closed (whitelist blacklist : list string) (r : Request) (w : ResponseWriter)
  : Prop :=
  whitelist <> [] \/ blacklist <> [] ->
  unparseable (RemoteAddr r) ->
  rejects_403 (IPFilterMiddleware whitelist blacklist) r w.

(** A deny-list lets an address that does not parse through, and an
    allow-list accepts a listed address behind a stray bracket. *)
Lemma ip_filter_counterexample :
  ~ fails_closed [] ["10.0.0.1"] (request_at "not-an-address") (Plain NewRecorder)
  /\ ~ fails_closed ["192.168.1.100"] [] (request_at "[192.168.1.100") (Plain NewRecorder).
Proof.
  split; intros H.
  - apply (rejects_not_forwards (IPFilterMiddleware [] ["10.0.0.1"])
             (request_at "not-an-address") (Plain NewRecorder) (request_at "not-an-address")).
    + apply H; [right; discriminate |]. eexists. vm_compute. reflexivity.
    + intros next. reflexivity.
  - apply (rejects_not_forwards (IPFilterMiddleware ["192.168.1.100"] [])
             (request_at "[192.168.1.100") (Plain NewRecorder) (request_at "[192.168.1.100")).
    + apply H; [left; discriminate |]. eexists. vm_compute. reflexivity.
    + intros next. reflexivity.
Qed.

(** ** Compression *)

Definition accepts_gzip (r : Request) : bool :=
  GoStrings.Contains (Header_Get (ReqHeader r) "Accept-Encoding") "gzip".

(** [testHandler] of the tests: status 200 and the body [OK]. *)
Definition testHandler : Handler :=
  fun _ w => Write "OK" (WriteHeader 200 w).

(** C10. The compression middleware calls the next handler on the writer it
    was given, untouched, for every request whose Accept-Encoding header
    does not contain [gzip]: no Content-Encoding header is added and the
    body is what the handler writes. It sets [Content-Encoding: gzip] and
    hands the next handler a gzip writer only for a request whose
    Accept-Encoding contains [gzip]. *)
Theorem compression_only_on_gzip level r w :
  (accepts_gzip r = false ->
   forwards (CompressionMiddleware level) r w r w)
  /\ ((exists next, CompressionMiddleware level next r w <> next r w) ->
      accepts_gzip r = true)
  /\ (accepts_gzip r = true -> gzip_valid_level level = true ->
      forall next,
        CompressionMiddleware level next r w =
        gzip_Close (next r (gzipResponseWriter (SetHeader "Content-Encoding" "gzip" w) level "")))
  /\ (accepts_gzip r = false ->
      header_of (CompressionMiddleware level testHandler r (Plain NewRecorder))
                "Content-Encoding" = ""
      /\ Body (underlying (CompressionMiddleware level testHandler r (Plain NewRecorder)))
         = [Raw "OK"]).
Proof.
  assert (Hid : accepts_gzip r = false -> forwards (CompressionMiddleware level) r w r w).
  { intros H next. unfold CompressionMiddleware. fold (accepts_gzip r). now rewrite H. }
  split; [exact Hid |]. split.
  { intros [next Hne]. destruct (accepts_gzip r) eqn:Ha; [reflexivity |].
    exfalso. apply Hne. now apply Hid. }
  split.
  { intros Ha Hl next. unfold CompressionMiddleware. fold (accepts_gzip r).
    now rewrite Ha, Hl. }
  intros Ha. unfold CompressionMiddleware. fold (accepts_gzip r). rewrite Ha.
  split; reflexivity.
Qed.

Definition request_accepting (encodings : string) : Request :=
  {| Method := "GET"; URL_Path := "/";
     ReqHeader := {[ "Accept-Encoding" := [encodings] ]};
     RemoteAddr := "192.168.1.100:1234" |}.

Lemma compression_only_on_gzip_witness :
  forwards (CompressionMiddleware 6) (request_accepting "deflate, br") (Plain NewRecorder)
           (request_accepting "deflate, br") (Plain NewRecorder)
  /\ CompressionMiddleware 6 testHandler (request_accepting "gzip, deflate") (Plain NewRecorder)
     = Plain {| Code := 200;
                HeaderMap := {[ "Content-Encoding" := ["gzip"] ]};
                Body := [Gzipped 6 "OK"];
                wroteHeader := true |}.
Proof.
  split.
  - apply (proj1 (compression_only_on_gzip 6 (request_accepting "deflate, br")
                                           (Plain NewRecorder))).
    reflexivity.
  - rewrite (proj1 (proj2 (proj2 (compression_only_on_gzip 6
               (request_accepting "gzip, deflate") (Plain NewRecorder)))) eq_refl eq_refl).
    reflexivity.
Defined.

(** ** Conditional requests *)

(** The digits of [%x]: the fuel [verb_x] gives is enough. *)
Lemma hex_digits_fuel fuel : forall n acc,
  0 <= n -> (Z.to_nat (Z.log2 n) < fuel)%nat ->
  GoFmt.hex_digits (S fuel) n acc = GoFmt.hex_digits fuel n acc.
Proof.
  induction fuel as [| fuel IH]; intros n acc Hn Hf; [lia |].
  change (GoFmt.hex_digits (S (S fuel)) n acc)
    with (let acc' := String (GoFmt.hex_digit (n mod 16)) acc in
          if n <? 16 then acc' else GoFmt.hex_digits (S fuel) (n / 16) acc').
  change (GoFmt.hex_digits (S fuel) n acc)
    with (let acc' := String (GoFmt.hex_digit (n mod 16)) acc in
          if n <? 16 then acc' else GoFmt.hex_digits fuel (n / 16) acc').
  cbv zeta. destruct (Z.ltb_spec n 16) as [Hlt | Hge]; [reflexivity |].
  apply IH.
  - apply Z.div_pos; lia.
  - assert (Hlog : Z.log2 (n / 16) = Z.log2 n - 4).
    { change 16 with (2 ^ 4). rewrite <- Z.shiftr_div_pow2 by lia.
      rewrite Z.log2_shiftr by lia.
      assert (4 <= Z.log2 n) by (apply Z.log2_le_pow2; simpl; lia). lia. }
    pose proof (Z.log2_nonneg (n / 16)). lia.
Qed.

Lemma etag_of_nonempty info : etag_of info <> "".
Proof. unfold etag_of. discriminate. Qed.

Lemma Body_WriteHeader code w :
  Body (underlying (WriteHeader code w)) = Body (underlying w).
Proof.
  unfold WriteHeader. rewrite underlying_on_response. apply resp_WriteHeader_Body.
Qed.

Definition if_none_match (r : Request) : string := Header_Get (ReqHeader r) "If-None-Match".


Definition etags_on : ServerConfig :=
  {| RootDir := "."; SPAMode := false; SPAIndex := "index.html";
     IndexFiles := ["index.html"]; DirectoryListing := false;
     EnableETags := true; CustomErrorPages := ∅ |}.

Definition some_file : FileInfo :=
  {| ModTimeUnix := 1700000000; FileSize := 1234; IsDir := false |}.

Definition request_if_none_match (validator : string) : Request :=
  {| Method := "GET"; URL_Path := "/index.html";
     ReqHeader := {[ "If-None-Match" := [validator] ]};
     RemoteAddr := "192.168.1.100:1234" |}.

(** A stand-in for [http.ServeFile] that writes the bytes of the file. *)
Definition serve_bytes (content : string) : ResponseWriter -> Request -> string -> ResponseWriter :=
  fun w _ _ => Write content w.


(** ** The rate limiter: one key does not touch another *)

Lemma allow_config rl ip now : config (snd (allow rl ip now)) = config rl.
Proof.
  unfold allow. destruct (visitors rl !! ip); [| reflexivity].
  match goal with |- context [if ?b then _ else _] => destruct b end; reflexivity.
Qed.

Lemma allow_other rl ip ip' now :
  ip <> ip' -> visitors (snd (allow rl ip now)) !! ip' = visitors rl !! ip'.
Proof.
  intros Hne. unfold allow. destruct (visitors rl !! ip).
  - match goal with |- context [if ?b then _ else _] => destruct b end;
      simpl; now rewrite lookup_insert_ne.
  - simpl. now rewrite lookup_insert_ne.
Qed.

(** The answer of [allow] to a key depends on the limiter through the
    configuration and the state of that key only. *)
Lemma allow_depends rl1 rl2 ip now :
  config rl1 = config rl2 ->
  visitors rl1 !! ip = visitors rl2 !! ip ->
  fst (allow rl1 ip now) = fst (allow rl2 ip now)
  /\ visitors (snd (allow rl1 ip now)) !! ip = visitors (snd (allow rl2 ip now)) !! ip.
Proof.
  intros Hc Hv. unfold allow. rewrite Hc, Hv.
  destruct (visitors rl2 !! ip).
  - match goal with |- context [if ?b then _ else _] => destruct b end;
      simpl; now rewrite !lookup_insert_eq.
  - simpl. now rewrite !lookup_insert_eq.
Qed.

(** A run of [allow] calls, each with its key and its time. *)
Definition allow_all (rl : RateLimiter) (calls : list (string * Z)) : RateLimiter :=
  fold_left (fun rl call => snd (allow rl (fst call) (snd call))) calls rl.

(** C9. A call [allow(k)] leaves the state stored for every other key as it
    was, tokens and lastSeen; after any run of calls for other keys, a key
    is admitted or refused as it would have been without them. *)
Theorem allow_frame rl ip ip' now calls :
  ip <> ip' ->
  Forall (fun call => fst call <> ip') calls ->
  visitors (snd (allow rl ip now)) !! ip' = visitors rl !! ip'
  /\ visitors (allow_all rl calls) !! ip' = visitors rl !! ip'
  /\ forall now', fst (allow (allow_all rl calls) ip' now') = fst (allow rl ip' now').
Proof.
  intros Hne Hcalls. split; [now apply allow_other |].
  assert (H : config (allow_all rl calls) = config rl
              /\ visitors (allow_all rl calls) !! ip' = visitors rl !! ip').
  { revert rl. induction Hcalls as [| [k t] calls Hk _ IH]; intros rl; simpl; [auto |].
    destruct (IH (snd (allow rl k t))) as [Hc Hv]. rewrite Hc, Hv.
    split; [apply allow_config | now apply allow_other]. }
  destruct H as [Hc Hv]. split; [exact Hv |].
  intros now'. now apply allow_depends.
Qed.

Definition burst_two : RateLimitConfig :=
  {| RL_Enabled := true; RequestsPerIP := 2; BurstSize := 2 |}.

Lemma allow_frame_witness :
  fst (allow (allow_all (NewRateLimiter burst_two)
                        [("192.168.1.100", 0); ("192.168.1.100", 0); ("192.168.1.100", 0)])
             "192.168.1.200" 0)
  = fst (allow (NewRateLimiter burst_two) "192.168.1.200" 0).
Proof.
  refine (proj2 (proj2 (allow_frame (NewRateLimiter burst_two) "192.168.1.100" "192.168.1.200" 0
                          [("192.168.1.100", 0); ("192.168.1.100", 0); ("192.168.1.100", 0)]
                          _ _)) 0).
  - discriminate.
  - repeat constructor; discriminate.
Defined.

(** ** Facts on [float64] *)

Definition finite_or_zero (f : spec_float) : Prop :=
  match f with
  | S754_zero _ | S754_finite _ _ _ => True
  | _ => False
  end.

Definition has_sign (s : bool) (f : spec_float) : Prop :=
  match f with
  | S754_zero s' | S754_infinity s' | S754_finite s' _ _ => s' = s
  | S754_nan => True
  end.

Lemma digits2_pos_size p : digits2_pos p = Pos.size p.
Proof. induction p; simpl; congruence. Qed.

Lemma Zdigits2_bound m k : 0 <= k -> 0 <= m < 2 ^ k -> 0 <= Zdigits2 m <= k.
Proof.
  intros Hk [Hm Hlt]. destruct m as [| p | p]; simpl; try lia.
  rewrite digits2_pos_size. split; [lia |].
  pose proof (Pos.size_le p) as Hle.
  assert (H2 : 2 ^ Z.pos (Pos.size p) <= 2 * Z.pos p).
  { change (2 * Z.pos p) with (Z.pos p~0). rewrite <- Pos2Z.inj_pow. now apply Pos2Z.pos_le_pos. }
  assert (H3 : 2 ^ Z.pos (Pos.size p) < 2 ^ (k + 1)).
  { rewrite Z.pow_add_r by lia. lia. }
  apply Z.pow_lt_mono_r_iff in H3; lia.
Qed.

Lemma shr_1_bounds r : 0 <= shr_m r -> 0 <= shr_m (shr_1 r) <= shr_m r.
Proof.
  destruct r as [m rb sb]. simpl. intros Hm.
  destruct m as [| [p | p |] | p]; simpl; lia.
Qed.

Lemma iter_shr_1_bounds n : forall r, 0 <= shr_m r -> 0 <= shr_m (SpecFloat.iter_pos shr_1 n r) <= shr_m r.
Proof.
  induction n as [n IH | n IH |]; intros r Hr; simpl.
  - pose proof (shr_1_bounds r Hr) as H1.
    pose proof (IH (shr_1 r) (proj1 H1)) as H2.
    pose proof (IH _ (proj1 H2)) as H3. lia.
  - pose proof (IH r Hr) as H2.
    pose proof (IH _ (proj1 H2)) as H3. lia.
  - now apply shr_1_bounds.
Qed.

Lemma shr_m_of_loc m l : shr_m (shr_record_of_loc m l) = m.
Proof. destruct l as [| []]; reflexivity. Qed.

Lemma shr_fexp_bounds prec emax m e l :
  0 <= m ->
  0 <= shr_m (fst (shr_fexp prec emax m e l)) <= m
  /\ snd (shr_fexp prec emax m e l) = Z.max e (fexp prec emax (Zdigits2 m + e)).
Proof.
  intros Hm. unfold shr_fexp, shr.
  destruct (fexp prec emax (Zdigits2 m + e) - e) as [| n | n] eqn:Hn; simpl.
  - rewrite shr_m_of_loc. lia.
  - pose proof (iter_shr_1_bounds n (shr_record_of_loc m l)) as H.
    rewrite shr_m_of_loc in H. specialize (H Hm). lia.
  - rewrite shr_m_of_loc. lia.
Qed.

Lemma round_nearest_even_bounds m l : m <= round_nearest_even m l <= m + 1.
Proof.
  unfold round_nearest_even. destruct l as [| []]; try lia.
  destruct (Z.even m); lia.
Qed.

Lemma binary_round_aux_sign prec emax s m e l :
  has_sign s (binary_round_aux prec emax s m e l).
Proof.
  unfold binary_round_aux.
  destruct (shr_fexp prec emax m e l) as [mrs' e'].
  destruct (shr_fexp prec emax _ e' loc_Exact) as [mrs'' e''].
  destruct (shr_m mrs''); simpl; auto.
  destruct (e'' <=? emax - prec); simpl; auto.
Qed.

Lemma binary_round_aux_finite s m e l :
  0 <= m < 2 ^ 64 -> -1074 <= e <= 0 ->
  finite_or_zero (binary_round_aux 53 1024 s m e l).
Proof.
  intros Hm He. unfold binary_round_aux.
  pose proof (shr_fexp_bounds 53 1024 m e l (proj1 Hm)) as [Hb1 He1].
  destruct (shr_fexp 53 1024 m e l) as [mrs' e']. simpl in Hb1, He1.
  set (m2 := round_nearest_even (shr_m mrs') (loc_of_shr_record mrs')).
  pose proof (round_nearest_even_bounds (shr_m mrs') (loc_of_shr_record mrs')) as Hr.
  fold m2 in Hr.
  assert (Hm2 : 0 <= m2 < 2 ^ 65) by (change (2 ^ 65) with (2 * 2 ^ 64); lia).
  pose proof (shr_fexp_bounds 53 1024 m2 e' loc_Exact (proj1 Hm2)) as [Hb2 He2].
  destruct (shr_fexp 53 1024 m2 e' loc_Exact) as [mrs'' e'']. simpl in Hb2, He2.
  pose proof (Zdigits2_bound m 64 ltac:(lia) Hm) as Hd1.
  pose proof (Zdigits2_bound m2 65 ltac:(lia) Hm2) as Hd2.
  unfold fexp, emin in He1, He2.
  destruct (shr_m mrs'') as [| p | p]; simpl; [exact I | | lia].
  destruct (e'' <=? 1024 - 53) eqn:Hle; [exact I |].
  apply Z.leb_gt in Hle. lia.
Qed.

Lemma iter_xO m k : Z.pos (Pos.iter xO m k) = Z.pos m * 2 ^ Z.pos k.
Proof.
  induction k as [| k IH] using Pos.peano_ind.
  - simpl. lia.
  - rewrite Pos.iter_succ, Pos2Z.inj_xO, IH, Pos2Z.inj_succ, Z.pow_succ_r by lia. lia.
Qed.

Lemma pos_lt_pow_digits m : Z.pos m < 2 ^ Z.pos (digits2_pos m).
Proof.
  rewrite digits2_pos_size, <- Pos2Z.inj_pow. apply Pos2Z.pos_lt_pos, Pos.size_gt.
Qed.

Lemma binary_round_finite s m :
  Z.pos m < 2 ^ 64 -> finite_or_zero (binary_round 53 1024 s m 0).
Proof.
  intros Hm. unfold binary_round, shl_align.
  pose proof (pos_lt_pow_digits m) as Hd.
  pose proof (Zdigits2_bound (Z.pos m) 64 ltac:(lia) ltac:(lia)) as Hd64. simpl in Hd64.
  set (d := Z.pos (digits2_pos m)) in *.
  assert (Hf : fexp 53 1024 (d + 0) = d - 53) by (unfold fexp, emin; lia).
  rewrite Hf.
  destruct (d - 53 - 0) as [| k | k] eqn:Hk.
  - apply binary_round_aux_finite; lia.
  - apply binary_round_aux_finite; lia.
  - apply binary_round_aux_finite; [| lia].
    rewrite iter_xO. split; [lia |].
    assert (Hk' : Z.pos k = 53 - d) by lia.
    assert (Z.pos m * 2 ^ Z.pos k < 2 ^ d * 2 ^ Z.pos k).
    { apply Z.mul_lt_mono_pos_r; [apply Z.pow_pos_nonneg; lia | exact Hd]. }
    rewrite <- Z.pow_add_r, Hk' in H by lia.
    replace (d + (53 - d)) with 53 in H by lia.
    rewrite Hk' in *. 
    assert (2 ^ 53 < 2 ^ 64) by (apply Z.pow_lt_mono_r; lia). lia.
Qed.

Lemma of_int_finite z :
  in_int_range z = true -> finite_or_zero (GoFloat64.of_int z).
Proof.
  unfold in_int_range, min_int, max_int. intros H.
  apply andb_true_iff in H. destruct H as [H1 H2].
  apply Z.leb_le in H1, H2.
  assert (H63 : 2 ^ 64 = 2 * 2 ^ 63) by reflexivity.
  unfold GoFloat64.of_int, binary_normalize.
  destruct z as [| p | p]; [exact I | |]; apply binary_round_finite; lia.
Qed.

Lemma binary_round_sign prec emax s m e : has_sign s (binary_round prec emax s m e).
Proof.
  unfold binary_round. destruct (shl_align m e _) as [mz ez]. apply binary_round_aux_sign.
Qed.

Lemma of_int_sign z : 0 <= z -> has_sign false (GoFloat64.of_int z).
Proof.
  intros Hz. unfold GoFloat64.of_int, binary_normalize.
  destruct z as [| p | p]; [reflexivity | apply binary_round_sign | lia].
Qed.

Lemma div_sign a b :
  has_sign false a -> has_sign false b -> has_sign false (GoFloat64.div a b).
Proof.
  unfold GoFloat64.div, SFdiv.
  destruct a as [sa | sa | | sa ma ea], b as [sb | sb | | sb mb eb];
    simpl; intros Ha Hb; subst; simpl; auto.
  destruct (SFdiv_core_binary _ _ _ _ _ _) as [[mz ez] lz]. apply binary_round_aux_sign.
Qed.

Lemma add_sign a b :
  has_sign false a -> has_sign false b -> has_sign false (GoFloat64.add a b).
Proof.
  unfold GoFloat64.add, SFadd.
  destruct a as [sa | sa | | sa ma ea], b as [sb | sb | | sb mb eb];
    simpl; intros Ha Hb; subst; simpl; auto.
  apply binary_round_sign.
Qed.

Lemma mul_sign a b :
  has_sign false a -> has_sign false b -> has_sign false (GoFloat64.mul a b).
Proof.
  unfold GoFloat64.mul, SFmul.
  destruct a as [sa | sa | | sa ma ea], b as [sb | sb | | sb mb eb];
    simpl; intros Ha Hb; subst; simpl; auto.
  apply binary_round_aux_sign.
Qed.

Lemma Minutes_sign d : 0 <= d -> has_sign false (GoTime.Minutes d).
Proof.
  intros Hd. unfold GoTime.Minutes.
  apply add_sign; [| apply div_sign]; apply of_int_sign; try lia.
  - apply Z.quot_pos; [exact Hd | reflexivity].
  - apply Z.rem_nonneg; [discriminate | exact Hd].
Qed.

(** Truncation and floor agree on a value that is not negative. *)
Lemma floor_trunc f refill :
  has_sign false f -> GoFloat64.floor f = Some refill ->
  GoFloat64.trunc f = Some refill /\ 0 <= refill.
Proof.
  destruct f as [s | s | | s m e]; simpl; intros Hs Hf; try discriminate.
  - inversion Hf. split; [reflexivity | lia].
  - subst s. inversion Hf. split; [reflexivity |]. apply Z.shiftl_nonneg. lia.
Qed.

Lemma tokensToAdd_floor config elapsed refill :
  0 <= RequestsPerIP config -> 0 <= elapsed ->
  GoFloat64.floor (refill_product config elapsed) = Some refill ->
  refill <= max_int ->
  tokensToAdd config elapsed = refill /\ 0 <= refill.
Proof.
  intros Hr He Hf Hmax.
  assert (Hs : has_sign false (refill_product config elapsed)).
  { apply mul_sign; [now apply Minutes_sign | now apply of_int_sign]. }
  destruct (floor_trunc _ _ Hs Hf) as [Ht H0].
  split; [| exact H0].
  unfold tokensToAdd, GoFloat64.to_int. rewrite Ht.
  unfold in_int_range, min_int.
  destruct (Z.leb_spec (- 2 ^ 63) refill); [| lia].
  destruct (Z.leb_spec refill max_int); [reflexivity | lia].
Qed.

(** No time, no tokens, whatever the rate. *)
Lemma tokensToAdd_no_time config :
  in_int_range (RequestsPerIP config) = true -> tokensToAdd config 0 = 0.
Proof.
  intros Hr. unfold tokensToAdd, refill_product.
  pose proof (of_int_finite _ Hr) as Hfin.
  change (GoTime.Minutes 0) with (S754_zero false).
  destruct (GoFloat64.of_int (RequestsPerIP config)); simpl in Hfin; try contradiction;
    reflexivity.
Qed.

Lemma Sub_same t : GoTime.Sub t t = 0.
Proof. unfold GoTime.Sub. rewrite Z.sub_diag. reflexivity. Qed.

Lemma Sub_nonneg t u : u <= t -> 0 <= GoTime.Sub t u.
Proof.
  intros H. unfold GoTime.Sub, GoTime.maxDuration, GoTime.minDuration, max_int, min_int.
  destruct (Z.ltb_spec (2 ^ 63 - 1) (t - u)); [lia |].
  destruct (Z.ltb_spec (t - u) (- 2 ^ 63)); lia.
Qed.

Lemma capacity_pos config : 1 <= capacity config.
Proof.
  unfold capacity.
  destruct (Z.leb_spec (BurstSize config) 0).
  - destruct (Z.leb_spec (RequestsPerIP config) 0); lia.
  - destruct (Z.leb_spec (BurstSize config) 0); lia.
Qed.

Lemma wrap64_id z : min_int <= z <= max_int -> wrap64 z = z.
Proof.
  unfold wrap64, min_int, max_int. intros H.
  rewrite Z.mod_small; lia.
Qed.

(** ** The token bucket *)

Definition store (rl : RateLimiter) (ip : string) (seen count : Z) : RateLimiter :=
  set_visitors rl (<[ip := {| lastSeen := seen; tokens := count |}]> (visitors rl)).

Lemma allow_first rl ip now :
  visitors rl !! ip = None ->
  allow rl ip now = (true, store rl ip now (capacity (config rl) - 1)).
Proof.
  intros Hnone. unfold allow, store. rewrite Hnone.
  pose proof (capacity_pos (config rl)) as Hc.
  destruct (Z.ltb_spec (capacity (config rl) - 1) 0); [lia | reflexivity].
Qed.

(** A later call when the rate is not negative, time does not run
    backwards and nothing overflows. *)
Lemma allow_later rl ip now v refill :
  visitors rl !! ip = Some v ->
  0 <= RequestsPerIP (config rl) ->
  lastSeen v <= now ->
  0 <= tokens v ->
  GoFloat64.floor (refill_product (config rl) (GoTime.Sub now (lastSeen v))) = Some refill ->
  tokens v + refill <= max_int ->
  let refilled := Z.min (capacity (config rl)) (tokens v + refill) in
  0 <= refilled <= capacity (config rl)
  /\ allow rl ip now =
     if 0 <? refilled then (true, store rl ip now (refilled - 1))
     else (false, store rl ip now refilled).
Proof.
  intros Hv Hrate Hseen Htok Hfloor Hsum refilled.
  pose proof (capacity_pos (config rl)) as Hc.
  destruct (tokensToAdd_floor (config rl) (GoTime.Sub now (lastSeen v)) refill
              Hrate (Sub_nonneg _ _ Hseen) Hfloor ltac:(lia)) as [Hadd Hre].
  assert (Hmax : max_int = 2 ^ 63 - 1) by reflexivity.
  assert (Hmin : min_int = - 2 ^ 63) by reflexivity.
  assert (Hb : 0 <= refilled <= capacity (config rl)) by (unfold refilled; lia).
  split; [exact Hb |].
  unfold allow, store. rewrite Hv, Hadd, wrap64_id by lia.
  assert (Hcap : (if capacity (config rl) <? tokens v + refill
                  then capacity (config rl) else tokens v + refill) = refilled).
  { unfold refilled. destruct (Z.ltb_spec (capacity (config rl)) (tokens v + refill)); lia. }
  rewrite Hcap.
  destruct (Z.ltb_spec 0 refilled); [| reflexivity].
  rewrite wrap64_id; [reflexivity | unfold refilled in *; lia].
Qed.

(** C1, as the code has it. The first call for a key stores
    [capacity - 1] tokens and allows, for every configuration. For a
    configuration whose [requestsPerPeriod] is not negative, a later call
    at a time not before [lastSeen], when 64-bit arithmetic does not
    overflow, adds the floor of the float64 product of the elapsed minutes
    and [requestsPerPeriod], caps at the capacity, sets [lastSeen], and
    then allows and takes a token when one is left, and refuses with the
    tokens at 0 otherwise. With capacity 2 and no time elapsed, the first
    two calls of a fresh key are allowed and the third is refused. *)
Theorem token_bucket rl ip now :
  (visitors rl !! ip = None ->
   allow rl ip now = (true, store rl ip now (capacity (config rl) - 1)))
  /\ (forall v refill,
        visitors rl !! ip = Some v ->
        0 <= RequestsPerIP (config rl) ->
        lastSeen v <= now ->
        0 <= tokens v ->
        GoFloat64.floor (refill_product (config rl) (GoTime.Sub now (lastSeen v))) = Some refill ->
        tokens v + refill <= max_int ->
        let refilled := Z.min (capacity (config rl)) (tokens v + refill) in
        0 <= refilled
        /\ (0 < refilled -> allow rl ip now = (true, store rl ip now (refilled - 1)))
        /\ (refilled = 0 -> allow rl ip now = (false, store rl ip now 0)))
  /\ (capacity (config rl) = 2 ->
      in_int_range (RequestsPerIP (config rl)) = true ->
      visitors rl !! ip = None ->
      let first := allow rl ip now in
      let second := allow (snd first) ip now in
      let third := allow (snd second) ip now in
      fst first = true /\ fst second = true /\ fst third = false
      /\ visitors (snd third) !! ip = Some {| lastSeen := now; tokens := 0 |}).
Proof.
  pose proof (allow_first rl ip now) as Hfirst.
  split; [exact Hfirst |]. split.
  - intros v refill Hv Hrate Hseen Htok Hfloor Hsum refilled.
    destruct (allow_later rl ip now v refill Hv Hrate Hseen Htok Hfloor Hsum) as [Hb Hstep].
    fold refilled in Hb, Hstep.
    split; [lia |]. split.
    + intros Hpos. rewrite Hstep.
      destruct (Z.ltb_spec 0 refilled); [reflexivity | lia].
    + intros Hz. rewrite Hstep, Hz. reflexivity.
  - intros Hcap Hrange Hnone first second third.
    assert (Hadd : tokensToAdd (config rl) 0 = 0) by now apply tokensToAdd_no_time.
    assert (H1 : first = (true, store rl ip now 1)).
    { unfold first. rewrite (Hfirst Hnone), Hcap. reflexivity. }
    assert (H2 : second = (true, store (store rl ip now 1) ip now 0)).
    { unfold second. rewrite H1. unfold allow at 1. simpl.
      rewrite lookup_insert_eq. simpl. rewrite Sub_same, Hadd, Hcap. reflexivity. }
    assert (H3 : third = (false, store (store (store rl ip now 1) ip now 0) ip now 0)).
    { unfold third. rewrite H2. unfold allow at 1. simpl.
      rewrite lookup_insert_eq. simpl. rewrite Sub_same, Hadd, Hcap. reflexivity. }
    rewrite H1, H2, H3. simpl. rewrite lookup_insert_eq. auto.
Qed.

(** A limiter that saw the key half a minute ago and has no token left. *)
Definition drained : RateLimiter :=
  store (NewRateLimiter burst_two) "192.168.1.100" 0 0.

Lemma token_bucket_witness :
  allow drained "192.168.1.100" 30000000000
  = (true, store drained "192.168.1.100" 30000000000 0)
  /\ fst (allow (snd (allow (snd (allow (NewRateLimiter burst_two) "192.168.1.55" 7))
                            "192.168.1.55" 7))
                "192.168.1.55" 7) = false.
Proof.
  split.
  - refine (proj1 (proj2 (proj1 (proj2 (token_bucket drained "192.168.1.100" 30000000000))
              {| lastSeen := 0; tokens := 0 |} 1 _ _ _ _ _ _)) _);
      try (vm_compute; first [reflexivity | discriminate]).
  - refine (proj1 (proj2 (proj2 (proj2 (proj2
              (token_bucket (NewRateLimiter burst_two) "192.168.1.55" 7)) _ _ _))));
      vm_compute; reflexivity.
Defined.

(** The later call as the specification words it: the floor of the
    product is added, and a refused call leaves the tokens at 0. *)
Definition later_call_as_specified (rl : RateLimiter) (ip : string) (now : Z) : Prop :=
  forall v refill,
    visitors rl !! ip = Some v ->
    GoFloat64.floor (refill_product (config rl) (GoTime.Sub now (lastSeen v))) = Some refill ->
    let refilled := Z.min (capacity (config rl)) (tokens v + refill) in
    allow rl ip now =
    if 0 <? refilled then (true, store rl ip now (refilled - 1))
    else (false, store rl ip now 0).

Definition negative_rate : RateLimitConfig :=
  {| RL_Enabled := true; RequestsPerIP := -3; BurstSize := 5 |}.

(** The limiter after the first request of a client at time 0. *)
Definition seen_once : RateLimiter :=
  snd (allow (NewRateLimiter negative_rate) "192.168.1.100" 0).

(** With [requestsPerPeriod = -3] and a burst of 5: two minutes after its
    first request a client is refused with -2 tokens stored, not 0; ten
    seconds after it, the conversion to [int] rounds -0.5 to 0 where the
    floor is -1, and 3 tokens are left, not 2. *)
Lemma token_bucket_counterexample :
  ~ later_call_as_specified seen_once "192.168.1.100" 120000000000
  /\ ~ later_call_as_specified seen_once "192.168.1.100" 10000000000.
Proof.
  split; intros H.
  - specialize (H {| lastSeen := 0; tokens := 4 |} (-6) eq_refl eq_refl).
    apply (f_equal (fun res => tokens <$> visitors (snd res) !! "192.168.1.100")) in H.
    vm_compute in H. discriminate.
  - specialize (H {| lastSeen := 0; tokens := 4 |} (-1) eq_refl eq_refl).
    apply (f_equal (fun res => tokens <$> visitors (snd res) !! "192.168.1.100")) in H.
    vm_compute in H. discriminate.
Qed.

(** ** The bounds of the tokens *)

Definition tokens_in_bounds (rl : RateLimiter) : Prop :=
  forall ip v, visitors rl !! ip = Some v -> 0 <= tokens v <= capacity (config rl).

(** The bounds are kept by a sweep, and by [allow] as long as the rate is
    not negative, time does not run backwards and nothing overflows. *)
Lemma sweep_keeps_bounds rl now :
  tokens_in_bounds rl -> tokens_in_bounds (cleanupVisitors rl now).
Proof.
  intros Hb ip v Hv. unfold cleanupVisitors in Hv. simpl in Hv.
  apply map_lookup_filter_Some in Hv. destruct Hv as [Hv _].
  exact (Hb ip v Hv).
Qed.

Lemma allow_keeps_bounds rl ip now :
  0 <= RequestsPerIP (config rl) ->
  tokens_in_bounds rl ->
  (forall v, visitors rl !! ip = Some v ->
             lastSeen v <= now
             /\ exists refill,
                 GoFloat64.floor (refill_product (config rl) (GoTime.Sub now (lastSeen v)))
                 = Some refill
                 /\ tokens v + refill <= max_int) ->
  tokens_in_bounds (snd (allow rl ip now)).
Proof.
  intros Hrate Hb Hcall ip' v' Hv'. rewrite allow_config.
  pose proof (capacity_pos (config rl)) as Hc.
  destruct (decide (ip = ip')) as [<- | Hne].
  - destruct (visitors rl !! ip) as [v |] eqn:Hv.
    + destruct (Hcall v eq_refl) as (Hseen & refill & Hfloor & Hsum).
      destruct (allow_later rl ip now v refill Hv Hrate Hseen (proj1 (Hb ip v Hv)) Hfloor Hsum)
        as [Hr Hstep].
      rewrite Hstep in Hv'.
      destruct (Z.ltb_spec 0 (Z.min (capacity (config rl)) (tokens v + refill)));
        simpl in Hv'; rewrite lookup_insert_eq in Hv'; inversion Hv'; subst; simpl; lia.
    + rewrite (allow_first rl ip now Hv) in Hv'. simpl in Hv'.
      rewrite lookup_insert_eq in Hv'. inversion Hv'; subst; simpl. lia.
  - rewrite allow_other in Hv' by assumption. exact (Hb ip' v' Hv').
Qed.

(** C4 fails on the code. With [requestsPerPeriod = -3] and a burst of 5,
    the second request of a client two minutes after its first leaves -2
    tokens in its state: the refill adds a negative number and only the
    upper bound is enforced. *)
Theorem tokens_below_zero :
  visitors (rl_run (NewRateLimiter negative_rate)
                   [OpAllow "192.168.1.100" 0; OpAllow "192.168.1.100" (2 * GoTime.Minute)])
    !! "192.168.1.100"
  = Some {| lastSeen := 120000000000; tokens := -2 |}
  /\ ~ tokens_in_bounds (rl_run (NewRateLimiter negative_rate)
                           [OpAllow "192.168.1.100" 0; OpAllow "192.168.1.100" (2 * GoTime.Minute)]).
Proof.
  assert (H : visitors (rl_run (NewRateLimiter negative_rate)
                          [OpAllow "192.168.1.100" 0; OpAllow "192.168.1.100" (2 * GoTime.Minute)])
                !! "192.168.1.100"
              = Some {| lastSeen := 120000000000; tokens := -2 |}).
  { vm_compute. reflexivity. }
  split; [exact H |].
  intros Hb. specialize (Hb _ _ H). simpl in Hb. lia.
Qed.
(** ** The algorithm of [Clean], segment by segment *)

Import GoFilepath.

Definition dot_seg : bytes := ["."%char].
Definition dotdot_seg : bytes := ["."%char; "."%char].

(** The bytes before the first separator, and the rest from that separator on. *)
Fixpoint first_seg (p : bytes) : bytes :=
  match p with
  | [] => []
  | c :: p' => if IsPathSeparator c then [] else c :: first_seg p'
  end.

Fixpoint after_seg (p : bytes) : bytes :=
  match p with
  | [] => []
  | c :: p' => if IsPathSeparator c then p else after_seg p'
  end.

(** What one iteration of the loop of [Clean] does to the buffer and to
    [dotdot], by the path element it reads. *)
Definition clean_step (rooted : bool) (st : bytes * nat) (seg : bytes) : bytes * nat :=
  let '(out, dotdot) := st in
  if decide (seg = []) then st
  else if decide (seg = dot_seg) then st
  else if decide (seg = dotdot_seg) then
    if (dotdot <? length out)%nat then
      (firstn (backtrack out dotdot (length out - 1)) out, dotdot)
    else if negb rooted then
      let out1 := if (0 <? length out)%nat then out ++ [Separator] else out in
      let out2 := out1 ++ dotdot_seg in
      (out2, length out2)
    else st
  else
    let out1 :=
      if (rooted && negb (length out =? 1)%nat) || (negb rooted && negb (length out =? 0)%nat)
      then out ++ [Separator] else out in
    (out1 ++ seg, dotdot).

Definition clean_segs (rooted : bool) (segs : list bytes) (st : bytes * nat) : bytes * nat :=
  fold_left (clean_step rooted) segs st.

Lemma clean_segs_cons rooted seg segs st :
  clean_segs rooted (seg :: segs) st = clean_segs rooted segs (clean_step rooted st seg).
Proof. reflexivity. Qed.

Definition segments (p : bytes) : list bytes := GoStrings.split Separator p.

Lemma segments_nil : segments [] = [[]].
Proof. reflexivity. Qed.

Lemma segments_sep p : segments (Separator :: p) = [] :: segments p.
Proof. reflexivity. Qed.

Lemma segments_not_nil p : segments p <> [].
Proof.
  unfold segments. induction p as [| c p IH]; simpl; [discriminate |].
  destruct (Ascii.eqb c Separator); [discriminate |].
  destruct (GoStrings.split Separator p); [contradiction | discriminate].
Qed.

Lemma IsPathSeparator_true c : IsPathSeparator c = true <-> c = Separator.
Proof. unfold IsPathSeparator. apply Ascii.eqb_eq. Qed.

Lemma IsPathSeparator_false c : IsPathSeparator c = false <-> c <> Separator.
Proof. unfold IsPathSeparator. apply Ascii.eqb_neq. Qed.

(** The segments of a path: its first segment, then those of what follows
    the separator. *)
Lemma segments_first p :
  segments p = first_seg p :: match after_seg p with
                              | [] => []
                              | _ :: rest => segments rest
                              end.
Proof.
  unfold segments. induction p as [| c p IH]; simpl; [reflexivity |].
  fold (IsPathSeparator c). destruct (IsPathSeparator c) eqn:Hc; [reflexivity |].
  rewrite IH. reflexivity.
Qed.

Lemma after_seg_cases p :
  after_seg p = [] \/ exists rest, after_seg p = Separator :: rest.
Proof.
  induction p as [| c p IH]; simpl; [now left |].
  destruct (IsPathSeparator c) eqn:Hc; [| exact IH].
  right. apply IsPathSeparator_true in Hc. subst c. now exists p.
Qed.

Lemma after_seg_length p : (length (after_seg p) <= length p)%nat.
Proof.
  induction p as [| c p IH]; simpl; [lia |].
  destruct (IsPathSeparator c); simpl; lia.
Qed.

Lemma first_after p : first_seg p ++ after_seg p = p.
Proof.
  induction p as [| c p IH]; simpl; [reflexivity |].
  destruct (IsPathSeparator c); simpl; [reflexivity | now rewrite IH].
Qed.

Lemma first_seg_no_sep p : Forall (fun c => c <> Separator) (first_seg p).
Proof.
  induction p as [| c p IH]; simpl; [constructor |].
  destruct (IsPathSeparator c) eqn:Hc; [constructor |].
  constructor; [now apply IsPathSeparator_false | exact IH].
Qed.

Lemma copy_element_spec p out :
  copy_element p out = (after_seg p, out ++ first_seg p).
Proof.
  revert out. induction p as [| c p IH]; intros out; simpl.
  - now rewrite app_nil_r.
  - destruct (IsPathSeparator c); [now rewrite app_nil_r |].
    rewrite IH, <- app_assoc. reflexivity.
Qed.

(** The segments after the first one, read off what follows it. *)
Lemma clean_segs_after rooted p st :
  clean_segs rooted (segments (after_seg p)) st =
  clean_segs rooted (match after_seg p with
                     | [] => []
                     | _ :: rest => segments rest
                     end) st.
Proof.
  destruct (after_seg_cases p) as [H | [rest H]]; rewrite H.
  - simpl. destruct st. reflexivity.
  - rewrite segments_sep. simpl. destruct st. reflexivity.
Qed.

Lemma at_end_or_sep_first p : at_end_or_sep p = true <-> first_seg p = [].
Proof.
  destruct p as [| c p]; simpl; [tauto |].
  destruct (IsPathSeparator c); split; congruence.
Qed.

Lemma at_end_or_sep_after p : at_end_or_sep p = true -> after_seg p = p.
Proof.
  destruct p as [| c p]; simpl; [reflexivity |].
  now intros ->.
Qed.

Lemma is_dot_true c : is_dot c = true <-> c = "."%char.
Proof. unfold is_dot. apply Ascii.eqb_eq. Qed.

(** The loop of [Clean] runs [clean_step] over the segments of the path,
    and the length of the path is fuel enough. *)
Lemma clean_loop_segments fuel : forall rooted p out dotdot,
  (length p <= fuel)%nat ->
  clean_loop fuel rooted p out dotdot = fst (clean_segs rooted (segments p) (out, dotdot)).
Proof.
  induction fuel as [| fuel IH]; intros rooted p out dotdot Hlen.
  - destruct p; [reflexivity | simpl in Hlen; lia].
  - destruct p as [| c p1]; [reflexivity |].
    simpl in Hlen. cbn [clean_loop].
    destruct (IsPathSeparator c) eqn:Hsep.
    { apply IsPathSeparator_true in Hsep. subst c. rewrite segments_sep.
      rewrite IH by lia. reflexivity. }
    assert (Hseg : first_seg (c :: p1) = c :: first_seg p1) by (simpl; now rewrite Hsep).
    assert (Haft : after_seg (c :: p1) = after_seg p1) by (simpl; now rewrite Hsep).
    pose proof (after_seg_length p1) as Hal.
    rewrite (segments_first (c :: p1)), Hseg, Haft.
    rewrite clean_segs_cons, <- (clean_segs_after rooted p1).
    destruct (is_dot c && at_end_or_sep p1) eqn:H1.
    { apply andb_true_iff in H1. destruct H1 as [Hc Hp1].
      apply is_dot_true in Hc. subst c.
      rewrite (at_end_or_sep_after _ Hp1).
      apply at_end_or_sep_first in Hp1. rewrite Hp1.
      rewrite IH by lia. reflexivity. }
    destruct (is_dot c && is_dot (hd Separator p1) && at_end_or_sep (tl p1)) eqn:H2.
    { apply andb_true_iff in H2. destruct H2 as [H2 Hp2].
      apply andb_true_iff in H2. destruct H2 as [Hc Hc2].
      apply is_dot_true in Hc. subst c.
      destruct p1 as [| c2 p2]; [discriminate |]. simpl in Hc2, Hp2.
      apply is_dot_true in Hc2. subst c2. cbn [tl].
      assert (Hs2 : first_seg ("."%char :: p2) = "."%char :: first_seg p2) by reflexivity.
      assert (Ha2 : after_seg ("."%char :: p2) = after_seg p2) by reflexivity.
      rewrite Hs2, Ha2. rewrite (at_end_or_sep_after _ Hp2).
      apply at_end_or_sep_first in Hp2. rewrite Hp2.
      simpl in Hlen.
      unfold clean_step. fold dotdot_seg.
      destruct (decide (dotdot_seg = [])); [discriminate |].
      destruct (decide (dotdot_seg = dot_seg)); [discriminate |].
      destruct (decide (dotdot_seg = dotdot_seg)); [| contradiction].
      destruct (dotdot <? length out)%nat; [rewrite IH by lia; reflexivity |].
      destruct (negb rooted); rewrite IH by lia; reflexivity. }
    rewrite copy_element_spec, Hseg, Haft.
    rewrite IH by lia.
    f_equal. f_equal. unfold clean_step.
    destruct (decide (c :: first_seg p1 = [])); [discriminate |].
    destruct (decide (c :: first_seg p1 = dot_seg)) as [Hd | _].
    { exfalso. inversion Hd as [[Hc Hf]]. subst c.
      apply at_end_or_sep_first in Hf. rewrite Hf in H1. discriminate. }
    destruct (decide (c :: first_seg p1 = dotdot_seg)) as [Hd | _].
    { exfalso. inversion Hd as [[Hc Hf]]. subst c.
      destruct p1 as [| c2 p2]; [discriminate |]. simpl in Hf.
      destruct (IsPathSeparator c2); [discriminate |].
      inversion Hf as [[Hc2 Hf2]]. subst c2.
      apply at_end_or_sep_first in Hf2. simpl in H2. rewrite Hf2 in H2. discriminate. }
    reflexivity.
Qed.

(** More fuel than the length of the path changes nothing. *)
Lemma clean_loop_fuel fuel rooted p out dotdot :
  (length p <= fuel)%nat ->
  clean_loop fuel rooted p out dotdot = clean_loop (length p) rooted p out dotdot.
Proof.
  intros H. now rewrite !clean_loop_segments by lia.
Qed.

(** ** The buffer of [Clean] as a stack of path elements *)

(** A path element held in the buffer: not empty, without a separator. *)
Definition good (e : bytes) : Prop := e <> [] /\ Forall (fun c => c <> Separator) e.

(** The buffer for a stack of elements, the last one written first in the
    list; the separator is put before an element as the loop does it. *)
Fixpoint render (rooted : bool) (rstack : list bytes) : bytes :=
  match rstack with
  | [] => if rooted then [Separator] else []
  | e :: rest =>
    let base := render rooted rest in
    (if (rooted && negb (length base =? 1)%nat) || (negb rooted && negb (length base =? 0)%nat)
     then base ++ [Separator] else base) ++ e
  end.

(** The elements the loop can back over, and the number of leading [..]
    elements below them. *)
Definition stack_of (st : list bytes * nat) : list bytes :=
  fst st ++ repeat dotdot_seg (snd st).

Definition stack_step (rooted : bool) (st : list bytes * nat) (seg : bytes) : list bytes * nat :=
  let '(reals, k) := st in
  if decide (seg = []) then st
  else if decide (seg = dot_seg) then st
  else if decide (seg = dotdot_seg) then
    match reals with
    | _ :: reals' => (reals', k)
    | [] => if rooted then st else ([], S k)
    end
  else (seg :: reals, k).

Definition stack_segs (rooted : bool) (segs : list bytes) (st : list bytes * nat)
  : list bytes * nat :=
  fold_left (stack_step rooted) segs st.

Record buffer_inv (rooted : bool) (buf : bytes * nat) (st : list bytes * nat) : Prop := {
  inv_out : fst buf = render rooted (stack_of st);
  inv_dotdot : snd buf = length (render rooted (repeat dotdot_seg (snd st)));
  inv_rooted : rooted = true -> snd st = 0%nat;
  inv_good : Forall good (fst st);
}.

Lemma render_length_app rooted l1 l2 :
  (length (render rooted l2) <= length (render rooted (l1 ++ l2)))%nat.
Proof.
  induction l1 as [| e l1 IH]; simpl; [lia |].
  destruct (_ || _); rewrite !length_app; simpl; lia.
Qed.

Lemma render_length_min rooted l :
  (length (render rooted []) <= length (render rooted l))%nat.
Proof. pose proof (render_length_app rooted l []) as H. now rewrite app_nil_r in H. Qed.

(** Where the loop that backs over the last element stops. *)
Lemma backtrack_stop out dotdot s : forall w,
  (s <= w)%nat ->
  (forall i, (s < i <= w)%nat ->
             (dotdot < i)%nat /\ IsPathSeparator (nth i out Separator) = false) ->
  (s <= dotdot)%nat \/ IsPathSeparator (nth s out Separator) = true ->
  backtrack out dotdot w = s.
Proof.
  induction w as [| w IH]; intros Hs Hmid Hstop.
  - simpl. lia.
  - destruct (Nat.eq_dec s (S w)) as [-> | Hne].
    + simpl. destruct Hstop as [Hd | Hsep].
      * destruct (Nat.ltb_spec dotdot (S w)); [lia | reflexivity].
      * rewrite Hsep. now rewrite andb_false_r.
    + cbn [backtrack]. destruct (Hmid (S w) ltac:(lia)) as [Hd Hc].
      rewrite Hc. destruct (Nat.ltb_spec dotdot (S w)); [| lia]. simpl.
      apply IH; [lia | | exact Hstop].
      intros i Hi. apply Hmid. lia.
Qed.

Lemma backtrack_render rooted e rest dotdot :
  good e ->
  (length (render rooted []) <= dotdot <= length (render rooted rest))%nat ->
  let out := render rooted (e :: rest) in
  (dotdot <? length out)%nat = true
  /\ firstn (backtrack out dotdot (length out - 1)) out = render rooted rest.
Proof.
  intros [Hne Hns] Hdd out. subst out. cbn [render].
  set (base := render rooted rest) in *.
  assert (Hle : (1 <= length e)%nat) by (destruct e; [congruence | simpl; lia]).
  assert (Hnth : forall pre i, (length pre <= i < length pre + length e)%nat ->
                 IsPathSeparator (nth i (pre ++ e) Separator) = false).
  { intros pre i Hi. rewrite app_nth2 by lia.
    apply IsPathSeparator_false.
    rewrite Forall_forall in Hns. apply Hns. apply list_elem_of_In, nth_In. lia. }
  destruct ((rooted && negb (length base =? 1)%nat) || (negb rooted && negb (length base =? 0)%nat))
    eqn:Hslash.
  - split.
    { apply Nat.ltb_lt. rewrite !length_app. simpl. lia. }
    rewrite (backtrack_stop _ _ (length base)).
    + rewrite <- app_assoc. now rewrite firstn_app, Nat.sub_diag, firstn_all, firstn_O, app_nil_r.
    + rewrite !length_app. simpl. lia.
    + intros i Hi. rewrite !length_app in Hi. simpl in Hi. split; [lia |].
      apply Hnth. rewrite length_app. simpl. lia.
    + right. rewrite <- app_assoc. rewrite app_nth2 by lia. rewrite Nat.sub_diag. reflexivity.
  - assert (Hbase : length base = length (render rooted [])).
    { destruct rooted; simpl in *.
      - rewrite orb_false_r in Hslash. apply negb_false_iff, Nat.eqb_eq in Hslash. exact Hslash.
      - apply negb_false_iff, Nat.eqb_eq in Hslash. exact Hslash. }
    split.
    { apply Nat.ltb_lt. rewrite !length_app. lia. }
    rewrite (backtrack_stop _ _ (length base)).
    + now rewrite firstn_app, Nat.sub_diag, firstn_all, firstn_O, app_nil_r.
    + rewrite !length_app. lia.
    + intros i Hi. rewrite !length_app in Hi. split; [lia |].
      apply Hnth. lia.
    + left. lia.
Qed.

Lemma clean_step_inv rooted buf st seg :
  buffer_inv rooted buf st ->
  Forall (fun c => c <> Separator) seg ->
  buffer_inv rooted (clean_step rooted buf seg) (stack_step rooted st seg).
Proof.
  intros [Hout Hdd Hroot Hgood] Hseg.
  destruct buf as [out dotdot], st as [reals k]. unfold stack_of in *. simpl in *.
  unfold clean_step, stack_step.
  destruct (decide (seg = [])); [now constructor |].
  destruct (decide (seg = dot_seg)); [now constructor |].
  destruct (decide (seg = dotdot_seg)).
  - destruct reals as [| top reals'].
    + simpl in Hout. assert (Hlen : dotdot = length out) by congruence.
      destruct (Nat.ltb_spec dotdot (length out)); [lia |].
      destruct rooted; simpl; [now constructor |].
      assert (Hnew : (if (0 <? length out)%nat then out ++ [Separator] else out) ++ dotdot_seg
                     = render false (repeat dotdot_seg (S k))).
      { simpl. rewrite <- Hout. destruct (length out); reflexivity. }
      constructor; simpl; auto; try discriminate.
      now rewrite Hnew.
    + inversion Hgood as [| ? ? He Hrest]; subst.
      destruct (backtrack_render rooted top (reals' ++ repeat dotdot_seg k)
                  (length (render rooted (repeat dotdot_seg k))) He) as [Hlt Hfirst].
      { split; [apply render_length_min | apply render_length_app]. }
      simpl in Hlt, Hfirst. simpl. rewrite Hlt, Hfirst.
      constructor; simpl; auto.
  - constructor; simpl; auto.
    + now rewrite Hout.
    + constructor; [split; assumption | assumption].
Qed.

Lemma clean_segs_inv rooted segs : forall buf st,
  buffer_inv rooted buf st ->
  Forall (Forall (fun c => c <> Separator)) segs ->
  buffer_inv rooted (clean_segs rooted segs buf) (stack_segs rooted segs st).
Proof.
  induction segs as [| seg segs IH]; intros buf st Hinv Hsegs; [exact Hinv |].
  inversion Hsegs; subst. simpl. apply IH; [| assumption].
  now apply clean_step_inv.
Qed.

Lemma segments_no_sep p : Forall (Forall (fun c => c <> Separator)) (segments p).
Proof.
  unfold segments. induction p as [| c p IH]; simpl; [repeat constructor |].
  destruct (Ascii.eqb_spec c Separator) as [-> | Hc]; [constructor; [constructor | exact IH] |].
  destruct (GoStrings.split Separator p) as [| f fs]; [repeat constructor; assumption |].
  inversion IH; subst. constructor; [constructor; assumption | assumption].
Qed.

Definition is_rooted (p : bytes) : bool :=
  match p with
  | c :: _ => IsPathSeparator c
  | [] => false
  end.

(** The stack [Clean] ends with, and the path it returns for it. *)
Definition clean_stack (p : bytes) : list bytes * nat :=
  stack_segs (is_rooted p) (segments p) ([], 0%nat).

Definition finish (out : bytes) : bytes :=
  if (length out =? 0)%nat then dot_seg else out.

Lemma clean_stack_spec p :
  clean p = finish (render (is_rooted p) (stack_of (clean_stack p)))
  /\ (is_rooted p = true -> snd (clean_stack p) = 0%nat)
  /\ Forall good (fst (clean_stack p)).
Proof.
  unfold clean_stack. destruct p as [| c p1].
  { split; [reflexivity | split; [discriminate | constructor]]. }
  assert (Hgen : forall p0 buf,
             (length p0 <= length (c :: p1))%nat ->
             buffer_inv (IsPathSeparator c) buf ([], 0%nat) ->
             let res := clean_loop (length (c :: p1)) (IsPathSeparator c) p0 (fst buf) (snd buf) in
             let st := stack_segs (IsPathSeparator c) (segments p0) ([], 0%nat) in
             res = render (IsPathSeparator c) (stack_of st)
             /\ (IsPathSeparator c = true -> snd st = 0%nat)
             /\ Forall good (fst st)).
  { intros p0 [out dd] Hlen Hinv. cbn [fst snd].
    rewrite clean_loop_segments by exact Hlen.
    destruct (clean_segs_inv _ (segments p0) _ _ Hinv (segments_no_sep p0)) as [H1 H2 H3 H4].
    auto. }
  unfold clean, finish. cbn [is_rooted].
  destruct (IsPathSeparator c) eqn:Hc.
  - apply IsPathSeparator_true in Hc. subst c. rewrite segments_sep.
    change (stack_segs true ([] :: segments p1) ([], 0%nat))
      with (stack_segs true (segments p1) ([], 0%nat)).
    destruct (Hgen p1 ([Separator], 1%nat)) as (Hres & Hk & Hg).
    + simpl. lia.
    + constructor; simpl; auto.
    + cbn [fst snd] in Hres. rewrite Hres. auto.
  - destruct (Hgen (c :: p1) ([], 0%nat)) as (Hres & Hk & Hg).
    + lia.
    + constructor; simpl; auto.
    + cbn [fst snd] in Hres. rewrite Hres. auto.
Qed.

(** ** Containment in the root *)

Definition nontrivial (seg : bytes) : bool :=
  negb (bool_decide (seg = [])) && negb (bool_decide (seg = dot_seg)).

(** The elements of a path that name something: its segments but the empty
    ones and [.]. *)
Definition components (p : bytes) : list bytes := List.filter nontrivial (segments p).

Definition no_dotdot (segs : list bytes) : bool :=
  forallb (fun seg => negb (bool_decide (seg = dotdot_seg))) segs.

(** [p] lies within [root]: both are absolute or both relative, the
    elements of the cleaned root are the first elements of [p], and no
    element of [p] after them is [..]. *)
Definition within (root p : bytes) : bool :=
  let r := components (clean root) in
  let c := components p in
  Bool.eqb (is_rooted p) (is_rooted (clean root))
  && bool_decide (firstn (length r) c = r)
  && no_dotdot (skipn (length r) c).

Definition lies_within (root p : string) : bool := within (to_bytes root) (to_bytes p).

Example lies_within_examples :
  lies_within "/srv/www" "/srv/www/css/site.css" = true
  /\ lies_within "/srv/www" "/srv/www" = true
  /\ lies_within "/srv/www" "/srv/www2/site.css" = false
  /\ lies_within "/srv/www" "/srv/secret" = false
  /\ lies_within "/srv/www/../pub" "/srv/pub/a" = true
  /\ lies_within "." "index.html" = true
  /\ lies_within "." "/index.html" = false
  /\ lies_within "." "../index.html" = false
  /\ lies_within "../www" "../www/a" = true
  /\ lies_within "../www" "../../www/a" = false.
Proof. repeat split; reflexivity. Qed.

Lemma segments_app_sep a b :
  segments (a ++ Separator :: b) = segments a ++ segments b.
Proof.
  unfold segments. induction a as [| c a IH]; [reflexivity |].
  simpl. destruct (Ascii.eqb c Separator).
  - now rewrite IH.
  - rewrite IH. pose proof (segments_not_nil a) as Hne. unfold segments in Hne.
    destruct (GoStrings.split Separator a); [contradiction | reflexivity].
Qed.

Lemma segments_single e :
  Forall (fun c => c <> Separator) e -> segments e = [e].
Proof.
  unfold segments. induction 1 as [| c e Hc _ IH]; [reflexivity |].
  simpl. apply Ascii.eqb_neq in Hc. now rewrite Hc, IH.
Qed.

Lemma render_nonempty rooted e rest :
  good e -> (length (render rooted []) < length (render rooted (e :: rest)))%nat.
Proof.
  intros [Hne _]. pose proof (render_length_min rooted rest) as Hmin.
  assert (Hle : (1 <= length e)%nat) by (destruct e; [congruence | simpl; lia]).
  cbn [render] in *. set (base := render rooted rest) in *.
  destruct (_ || _); rewrite !length_app; destruct rooted; simpl in *; lia.
Qed.

Lemma render_single rooted e : render rooted [e] = render rooted [] ++ e.
Proof. destruct rooted; reflexivity. Qed.

Lemma render_more rooted e e' rest :
  good e' ->
  render rooted (e :: e' :: rest) = render rooted (e' :: rest) ++ Separator :: e.
Proof.
  intros He'. pose proof (render_nonempty rooted e' rest He') as Hlt.
  change (render rooted (e :: e' :: rest))
    with ((if (rooted && negb (length (render rooted (e' :: rest)) =? 1)%nat)
              || (negb rooted && negb (length (render rooted (e' :: rest)) =? 0)%nat)
           then render rooted (e' :: rest) ++ [Separator]
           else render rooted (e' :: rest)) ++ e).
  remember (render rooted (e' :: rest)) as r eqn:Hr. clear Hr.
  destruct rooted; simpl in *.
  - destruct (Nat.eqb_spec (length r) 1); [lia |].
    simpl. now rewrite <- app_assoc.
  - destruct (Nat.eqb_spec (length r) 0); [lia |].
    simpl. now rewrite <- app_assoc.
Qed.

Definition rendered_segments (rooted : bool) (rstack : list bytes) : list bytes :=
  (if rooted then [[]] else []) ++ match rstack with
                                   | [] => [[]]
                                   | _ => rev rstack
                                   end.

Lemma segments_render rooted rstack :
  Forall good rstack ->
  segments (render rooted rstack) = rendered_segments rooted rstack.
Proof.
  unfold rendered_segments.
  induction 1 as [| e rest He Hrest IH]; [destruct rooted; reflexivity |].
  destruct rest as [| e' rest].
  - rewrite render_single. destruct He as [_ Hns].
    destruct rooted; simpl.
    + change (segments (Separator :: e)) with ([] :: segments e).
      now rewrite (segments_single e Hns).
    + now rewrite (segments_single e Hns).
  - inversion Hrest; subst.
    rewrite render_more by assumption.
    rewrite segments_app_sep, IH. destruct He as [_ Hns].
    rewrite (segments_single e Hns). cbn [rev]. now rewrite <- app_assoc.
Qed.

Lemma filter_nontrivial_id l :
  Forall good l -> Forall (fun e => e <> dot_seg) l -> List.filter nontrivial l = l.
Proof.
  induction 1 as [| e l [He _] _ IH]; intros Hd; [reflexivity |].
  inversion Hd; subst. simpl. unfold nontrivial at 1.
  rewrite !bool_decide_eq_false_2 by assumption. simpl. now rewrite IH.
Qed.

Lemma components_render rooted rstack :
  Forall good rstack -> Forall (fun e => e <> dot_seg) rstack ->
  components (finish (render rooted rstack)) = rev rstack.
Proof.
  intros Hg Hd. destruct rstack as [| e rest].
  - destruct rooted; reflexivity.
  - inversion Hg; subst.
    pose proof (render_nonempty rooted e rest ltac:(assumption)) as Hlt.
    unfold finish. destruct (Nat.eqb_spec (length (render rooted (e :: rest))) 0); [lia |].
    unfold components. rewrite segments_render by assumption.
    unfold rendered_segments. rewrite List.filter_app.
    replace (List.filter nontrivial (if rooted then [[]] else [])) with (@nil bytes)
      by (destruct rooted; reflexivity).
    apply filter_nontrivial_id.
    + apply Forall_rev. assumption.
    + apply Forall_rev. assumption.
Qed.

Lemma is_rooted_render rooted rstack :
  Forall good rstack -> is_rooted (finish (render rooted rstack)) = rooted.
Proof.
  intros Hg. destruct rooted.
  - assert (H : exists tl, render true rstack = Separator :: tl).
    { induction rstack as [| e rest IH]; [now exists [] |].
      inversion Hg; subst. destruct (IH ltac:(assumption)) as [tl Htl].
      cbn [render]. rewrite Htl. destruct (_ || _); simpl; eauto. }
    destruct H as [tl ->]. reflexivity.
  - assert (H : render false rstack = [] \/
                exists c tl, render false rstack = c :: tl /\ c <> Separator).
    { induction rstack as [| e rest IH]; [now left |].
      inversion Hg as [| ? ? [Hne Hns] Hrest]; subst. right.
      destruct (IH Hrest) as [Hnil | (c & tl & Heq & Hc)].
      - cbn [render]. rewrite Hnil. simpl.
        destruct e as [| c e]; [congruence |]. inversion Hns; subst. eauto.
      - cbn [render]. rewrite Heq. destruct (_ || _); simpl; eauto. }
    destruct H as [-> | (c & tl & -> & Hc)]; [reflexivity |].
    simpl. now apply IsPathSeparator_false.
Qed.

Lemma stack_segs_cons rooted seg segs st :
  stack_segs rooted (seg :: segs) st = stack_segs rooted segs (stack_step rooted st seg).
Proof. reflexivity. Qed.

(** Without a [..] element the loop only adds elements. *)
Lemma stack_segs_push rooted segs : forall reals k,
  no_dotdot segs = true ->
  stack_segs rooted segs (reals, k) = (rev (List.filter nontrivial segs) ++ reals, k).
Proof.
  induction segs as [| seg segs IH]; intros reals k Hnd; [reflexivity |].
  simpl in Hnd. apply andb_true_iff in Hnd. destruct Hnd as [Hseg Hnd].
  apply negb_true_iff, bool_decide_eq_false in Hseg.
  rewrite stack_segs_cons. cbn [List.filter].
  unfold stack_step, nontrivial.
  destruct (decide (seg = [])) as [-> | Hne]; [apply IH; assumption |].
  rewrite (bool_decide_eq_false_2 _ Hne).
  destruct (decide (seg = dot_seg)) as [-> | Hnd1]; [apply IH; assumption |].
  rewrite (bool_decide_eq_false_2 _ Hnd1).
  destruct (decide (seg = dotdot_seg)); [contradiction |].
  rewrite IH by assumption. simpl. now rewrite <- app_assoc.
Qed.

(** The elements the loop can back over are never [.] or [..]. *)
Definition named (e : bytes) : Prop := e <> dot_seg /\ e <> dotdot_seg.

Lemma stack_segs_named rooted segs : forall st,
  Forall named (fst st) -> Forall named (fst (stack_segs rooted segs st)).
Proof.
  induction segs as [| seg segs IH]; intros [reals k] Hn; [exact Hn |].
  rewrite stack_segs_cons. apply IH. unfold stack_step.
  destruct (decide (seg = [])); [exact Hn |].
  destruct (decide (seg = dot_seg)); [exact Hn |].
  destruct (decide (seg = dotdot_seg)).
  - simpl in Hn. destruct reals; [destruct rooted; simpl; auto |].
    inversion Hn; subst. assumption.
  - constructor; [split; assumption | exact Hn].
Qed.

Lemma no_dotdot_spec segs : no_dotdot segs = true <-> ~ In dotdot_seg segs.
Proof.
  unfold no_dotdot. rewrite forallb_forall. split.
  - intros H Hin. specialize (H _ Hin).
    rewrite bool_decide_eq_true_2 in H by reflexivity. discriminate.
  - intros H seg Hin. apply negb_true_iff, bool_decide_eq_false. congruence.
Qed.

Lemma dotdot_good : good dotdot_seg.
Proof. split; [discriminate |]. repeat constructor; discriminate. Qed.

Lemma Forall_repeat {A} (P : A -> Prop) x n : P x -> Forall P (repeat x n).
Proof. intros Hx. induction n; simpl; constructor; assumption. Qed.

(** The stack of a path whose [..] elements, if any, are stopped by the
    root has no [..] left, and its cleaned form has no [..] segment. *)
Lemma clean_no_dotdot q :
  is_rooted q = true \/ ~ In dotdot_seg (segments q) ->
  snd (clean_stack q) = 0%nat.
Proof.
  intros [Hr | Hnd].
  - now apply clean_stack_spec.
  - unfold clean_stack. rewrite stack_segs_push by now apply no_dotdot_spec. reflexivity.
Qed.

Lemma clean_stack_named p : Forall named (fst (clean_stack p)).
Proof. unfold clean_stack. apply stack_segs_named. constructor. Qed.

Lemma named_not_dot l : Forall named l -> Forall (fun e => e <> dot_seg) l.
Proof. intros H. eapply Forall_impl; [exact H |]. now intros e [He _]. Qed.

Lemma components_clean q :
  snd (clean_stack q) = 0%nat ->
  components (clean q) = rev (fst (clean_stack q))
  /\ no_dotdot (segments (clean q)) = true.
Proof.
  intros Hk. destruct (clean_stack_spec q) as (Hclean & _ & Hgood).
  pose proof (clean_stack_named q) as Hnamed.
  assert (Hstack : stack_of (clean_stack q) = fst (clean_stack q)).
  { unfold stack_of. rewrite Hk. apply app_nil_r. }
  rewrite Hstack in Hclean.
  assert (Hc : components (clean q) = rev (fst (clean_stack q))).
  { rewrite Hclean. apply components_render; [assumption | now apply named_not_dot]. }
  split; [exact Hc |].
  apply no_dotdot_spec. intros Hin.
  assert (Hin' : In dotdot_seg (components (clean q))).
  { unfold components. apply List.filter_In. split; [exact Hin | reflexivity]. }
  rewrite Hc in Hin'. apply in_rev in Hin'.
  rewrite Forall_forall in Hnamed. apply list_elem_of_In in Hin'.
  destruct (Hnamed _ Hin') as [_ H]. now apply H.
Qed.

(** The path joined under a root lies within the root. *)
Theorem join_within root q :
  root <> [] ->
  is_rooted q = true \/ ~ In dotdot_seg (segments q) ->
  within root (join2 root (clean q)) = true.
Proof.
  intros Hroot Hq.
  pose proof (clean_no_dotdot q Hq) as Hk.
  destruct (components_clean q Hk) as [Hcq Hndq].
  set (q' := clean q) in *.
  assert (Hjoin : join2 root q' = clean (root ++ Separator :: q')).
  { destruct root; [congruence | reflexivity]. }
  assert (Hrooted : is_rooted (root ++ Separator :: q') = is_rooted root).
  { destruct root; [congruence | reflexivity]. }
  destruct (clean_stack_spec root) as (Hcr & Hkr & Hgr).
  pose proof (clean_stack_named root) as Hnr.
  destruct (clean_stack root) as [reals k] eqn:Hsr. simpl in Hkr, Hgr, Hnr.
  assert (Hsj : clean_stack (root ++ Separator :: q')
                = (rev (components q') ++ reals, k)).
  { unfold clean_stack. rewrite Hrooted, segments_app_sep.
    unfold stack_segs. rewrite fold_left_app.
    fold (stack_segs (is_rooted root) (segments root) ([], 0%nat)).
    fold (clean_stack root). rewrite Hsr.
    fold (stack_segs (is_rooted root) (segments q') (reals, k)).
    now rewrite stack_segs_push. }
  destruct (clean_stack_spec (root ++ Separator :: q')) as (Hcj & _ & _).
  rewrite Hsj, Hrooted in Hcj. unfold stack_of in Hcj, Hcr. simpl in Hcj, Hcr.
  assert (Hgq : Forall good (rev (components q'))
                /\ Forall (fun e => e <> dot_seg) (rev (components q'))).
  { rewrite Hcq, rev_involutive.
    destruct (clean_stack_spec q) as (_ & _ & Hg).
    split; [exact Hg | apply named_not_dot, clean_stack_named]. }
  destruct Hgq as [Hgq Hdq].
  assert (Hgd : Forall good (repeat dotdot_seg k)) by apply Forall_repeat, dotdot_good.
  assert (Hdd : Forall (fun e => e <> dot_seg) (repeat dotdot_seg k))
    by (apply Forall_repeat; discriminate).
  assert (Hall_r : Forall good (reals ++ repeat dotdot_seg k))
    by (apply Forall_app; split; assumption).
  assert (Hall_j : Forall good ((rev (components q') ++ reals) ++ repeat dotdot_seg k)).
  { rewrite <- app_assoc. apply Forall_app; split; assumption. }
  assert (Hcomp_r : components (clean root) = rev (reals ++ repeat dotdot_seg k)).
  { rewrite Hcr. apply components_render; [assumption |].
    apply Forall_app; split; [now apply named_not_dot | assumption]. }
  assert (Hcomp_j : components (clean (root ++ Separator :: q'))
                    = rev (reals ++ repeat dotdot_seg k) ++ components q').
  { rewrite Hcj, components_render; [| assumption |].
    - rewrite <- app_assoc, rev_app_distr, rev_involutive. reflexivity.
    - rewrite <- app_assoc. apply Forall_app; split; [assumption |].
      apply Forall_app; split; [now apply named_not_dot | assumption]. }
  unfold within. rewrite Hjoin, Hcomp_r, Hcomp_j.
  rewrite Hcj at 1. rewrite Hcr at 1.
  rewrite !is_rooted_render by assumption.
  rewrite eqb_reflx.
  rewrite firstn_app, Nat.sub_diag, firstn_all, firstn_O, app_nil_r.
  rewrite bool_decide_eq_true_2 by reflexivity.
  rewrite skipn_app, Nat.sub_diag, skipn_all. simpl.
  apply no_dotdot_spec. intros Hin.
  apply no_dotdot_spec in Hndq. apply Hndq.
  unfold components in Hin. apply List.filter_In in Hin. tauto.
Qed.

(** ** The resolved path *)

Lemma to_of_bytes b : to_bytes (of_bytes b) = b.
Proof. apply list_ascii_of_string_of_list_ascii. Qed.

Lemma of_to_bytes s : of_bytes (to_bytes s) = s.
Proof. apply string_of_list_ascii_of_string. Qed.

Lemma to_bytes_nonempty s : s <> "" -> to_bytes s <> [].
Proof.
  intros Hs Hb. apply Hs. rewrite <- (of_to_bytes s), Hb. reflexivity.
Qed.

Lemma IsAbs_is_rooted s : IsAbs s = is_rooted (to_bytes s).
Proof.
  unfold IsAbs, GoStrings.HasPrefix. destruct s as [| c s]; [reflexivity |].
  simpl. unfold IsPathSeparator, Separator.
  replace (GoStrings.has_prefix (to_bytes s) []) with true by (now destruct (to_bytes s)).
  apply andb_true_r.
Qed.

Lemma Split_segments s seg :
  In seg (segments (to_bytes s)) -> In (of_bytes seg) (GoStrings.Split s Separator).
Proof. intros H. unfold GoStrings.Split. now apply in_map. Qed.

(** A segment of a path is a piece of it. *)
Lemma segments_substring p :
  (exists b, p = hd [] (segments p) ++ b)
  /\ forall seg, In seg (segments p) -> exists a b, p = a ++ seg ++ b.
Proof.
  unfold segments. induction p as [| c p [[b0 Hhd] IH]]; simpl.
  - split; [now exists [] |]. intros seg [<- | []]. now exists [], [].
  - destruct (Ascii.eqb_spec c Separator) as [-> | Hc].
    + split; [now exists (Separator :: p) |].
      intros seg [<- | Hin]; [now exists [], (Separator :: p) |].
      destruct (IH _ Hin) as (a & b & Heq). exists (Separator :: a), b. now rewrite Heq at 1.
    + destruct (GoStrings.split Separator p) as [| f fs] eqn:Hsp.
      * exfalso. now apply (segments_not_nil p).
      * simpl in Hhd. split; [exists b0; simpl; now rewrite Hhd at 1 |].
        intros seg [<- | Hin].
        -- exists [], b0. simpl. now rewrite Hhd at 1.
        -- destruct (IH seg (or_intror Hin)) as (a & b & Heq).
           exists (c :: a), b. simpl. now rewrite Heq at 1.
Qed.

Lemma has_prefix_app s b : GoStrings.has_prefix (s ++ b) s = true.
Proof.
  induction s as [| c s IH]; simpl; [now destruct b |].
  now rewrite Ascii.eqb_refl, IH.
Qed.

Lemma contains_app a s b : GoStrings.contains (a ++ s ++ b) s = true.
Proof.
  assert (Hunfold : forall x, GoStrings.contains x s =
                    GoStrings.has_prefix x s
                    || match x with [] => false | _ :: x' => GoStrings.contains x' s end).
  { now destruct x. }
  induction a as [| c a IH].
  - simpl app. now rewrite Hunfold, has_prefix_app.
  - change ((c :: a) ++ s ++ b) with (c :: (a ++ s ++ b)).
    rewrite Hunfold, IH. apply orb_true_r.
Qed.

Lemma contains_segment p seg :
  In seg (segments p) -> GoStrings.contains p seg = true.
Proof.
  intros Hin. destruct (proj2 (segments_substring p) seg Hin) as (a & b & ->).
  apply contains_app.
Qed.

Lemma resolvePath_within root urlPath cfg :
  RootDir cfg = root -> root <> "" ->
  IsAbs urlPath = true \/ ~ In ".." (GoStrings.Split urlPath Separator) ->
  lies_within root (resolvePath cfg urlPath) = true.
Proof.
  intros Hcfg Hroot Hp. unfold lies_within, resolvePath, Join, Clean.
  rewrite Hcfg, !to_of_bytes.
  apply join_within; [now apply to_bytes_nonempty |].
  destruct Hp as [Habs | Hnd]; [left; now rewrite <- IsAbs_is_rooted | right].
  intros Hin. apply Hnd. now apply (Split_segments urlPath dotdot_seg).
Qed.

Lemma no_dotdot_substring urlPath :
  GoStrings.Contains urlPath ".." = false ->
  ~ In ".." (GoStrings.Split urlPath Separator).
Proof.
  intros Hc Hin. unfold GoStrings.Split in Hin. apply in_map_iff in Hin.
  destruct Hin as (seg & Hseg & Hin).
  assert (seg = dotdot_seg).
  { rewrite <- (to_of_bytes seg), Hseg. reflexivity. }
  subst seg. apply contains_segment in Hin.
  unfold GoStrings.Contains in Hc. change (to_bytes "..") with dotdot_seg in Hc. congruence.
Qed.


Definition no_file : string -> StatResult := fun _ => StatNotExist.


(** The file handler on its own, handed a relative path that climbs: the
    path it resolves leaves the root. No such path comes from the HTTP
    server, and the normalizer in front of the handler answers it 403. *)
Example relative_path_alone :
  resolvePath etags_on "../secret" = "../secret"
  /\ lies_within "." (resolvePath etags_on "../secret") = false
  /\ rejects_403 (PathTraversalMiddleware ".") (get_request "../secret") (Plain NewRecorder).
Proof.
  split; [reflexivity |]. split; [reflexivity |].
  apply PathTraversal_rejects. reflexivity.
Qed.

(** ** The tests of the repository, on the model *)

Definition status_of (h : Handler) (r : Request) : Z :=
  Code (underlying (h r (Plain NewRecorder))).

Example TestBlockHiddenFilesMiddleware :
  map (fun path => status_of (BlockHiddenFilesMiddleware "." testHandler) (get_request path))
      ["/index.html"; "/style.css"; "/.env"; "/.git/config"; "/dir/.hidden";
       "/normal/path/file.txt"]
  = [200; 200; 403; 403; 403; 200].
Proof. vm_compute. reflexivity. Qed.

Example TestPathTraversalMiddleware :
  map (fun path => status_of (PathTraversalMiddleware "." testHandler) (get_request path))
      ["/index.html"; "/normal/path"; "/path/with/../dots"]
  = [200; 200; 200].
Proof. vm_compute. reflexivity. Qed.

Definition cors_example : CORSConfig :=
  {| CORS_Enabled := true;
     AllowedOrigins := ["https://example.com"];
     AllowedMethods := ["GET"; "POST"];
     AllowedHeaders := ["Content-Type"];
     AllowCredentials := true;
     MaxAge := 3600 |}.

Definition cors_wildcard : CORSConfig :=
  {| CORS_Enabled := true;
     AllowedOrigins := ["*"];
     AllowedMethods := [];
     AllowedHeaders := [];
     AllowCredentials := false;
     MaxAge := 0 |}.

Example TestCORSMiddleware :
  let served config method origin :=
      CORSMiddleware config testHandler (request_from method origin) (Plain NewRecorder) in
  header_of (served cors_example "GET" "https://example.com") "Access-Control-Allow-Origin"
  = "https://example.com"
  /\ header_of (served cors_example "GET" "https://example.com") "Access-Control-Allow-Credentials"
     = "true"
  /\ header_of (served cors_example "GET" "https://evil.com") "Access-Control-Allow-Origin" = ""
  /\ Code (underlying (served cors_example "OPTIONS" "https://example.com")) = 204
  /\ Code (underlying (served cors_example "OPTIONS" "https://evil.com")) = 204
  /\ header_of (served cors_wildcard "GET" "https://any-origin.com") "Access-Control-Allow-Origin"
     = "*".
Proof. vm_compute. repeat split; reflexivity. Qed.

(** The answers of [allow] to a run of calls. *)
Fixpoint answers_of (rl : RateLimiter) (calls : list (string * Z)) : list bool :=
  match calls with
  | [] => []
  | (ip, now) :: rest =>
    let '(ok, rl') := allow rl ip now in ok :: answers_of rl' rest
  end.

Example TestRateLimitMiddleware :
  answers_of (NewRateLimiter burst_two)
             [("192.168.1.100", 0); ("192.168.1.100", 0); ("192.168.1.100", 0);
              ("192.168.1.200", 0)]
  = [true; true; false; true].
Proof. vm_compute. reflexivity. Qed.

Example TestRateLimitMiddlewareRespectsInitialBurstSize :
  answers_of (NewRateLimiter {| RL_Enabled := true; RequestsPerIP := 100; BurstSize := 2 |})
             [("192.168.1.55", 0); ("192.168.1.55", 0); ("192.168.1.55", 0)]
  = [true; true; false].
Proof. vm_compute. reflexivity. Qed.

Example TestIPFilterMiddleware :
  let status whitelist blacklist remoteAddr :=
      status_of (IPFilterMiddleware whitelist blacklist testHandler) (request_at remoteAddr) in
  status ["192.168.1.100"] [] "192.168.1.100:1234" = 200
  /\ status ["192.168.1.100"] [] "192.168.1.200:5678" = 403
  /\ status [] ["192.168.1.100"] "192.168.1.100:1234" = 403
  /\ status [] ["192.168.1.100"] "192.168.1.200:5678" = 200
  /\ status ["192.168.1.100"] [] "192.168.1.100" = 200.
Proof. vm_compute. repeat split; reflexivity. Qed.

Example TestClientIP :
  map clientIP ["192.168.0.10:8080"; "192.168.0.10"; "[2001:db8::1]:443"; "[2001:db8::1]"]
  = ["192.168.0.10"; "192.168.0.10"; "2001:db8::1"; "2001:db8::1"].
Proof. vm_compute. reflexivity. Qed.

(** * Further properties of the code *)

(** ** The rate limiter, for every configuration *)

(** The fields of a configuration are Go [int]s. *)
Definition config_in_range (c : RateLimitConfig) : Prop :=
  in_int_range (RequestsPerIP c) = true /\ in_int_range (BurstSize c) = true.

Lemma in_int_range_spec z : in_int_range z = true <-> min_int <= z <= max_int.
Proof. unfold in_int_range. rewrite andb_true_iff, !Z.leb_le. reflexivity. Qed.

Lemma capacity_in_range c : config_in_range c -> 1 <= capacity c <= max_int.
Proof.
  intros [Hr Hb]. apply in_int_range_spec in Hr, Hb.
  split; [apply capacity_pos |]. unfold capacity.
  assert (1 <= max_int) by (unfold max_int; lia).
  destruct (Z.leb_spec (BurstSize c) 0).
  - destruct (Z.leb_spec (RequestsPerIP c) 0); lia.
  - destruct (Z.leb_spec (BurstSize c) 0); lia.
Qed.

(** What a call of [allow] leaves for its key, whatever was there before. *)
Lemma allow_outcome rl ip now :
  config_in_range (config rl) ->
  exists count,
    visitors (snd (allow rl ip now)) !! ip = Some {| lastSeen := now; tokens := count |}
    /\ (fst (allow rl ip now) = true -> 0 <= count <= capacity (config rl) - 1)
    /\ (fst (allow rl ip now) = false -> count <= 0 /\ visitors rl !! ip <> None).
Proof.
  intros Hcfg. pose proof (capacity_in_range _ Hcfg) as Hc.
  assert (Hmax : max_int = 2 ^ 63 - 1) by reflexivity.
  assert (Hmin : min_int = - 2 ^ 63) by reflexivity.
  destruct (visitors rl !! ip) as [v |] eqn:Hv.
  - unfold allow. rewrite Hv.
    set (t := wrap64 (tokens v + tokensToAdd (config rl) (GoTime.Sub now (lastSeen v)))).
    set (t2 := if capacity (config rl) <? t then capacity (config rl) else t).
    assert (Ht2 : t2 <= capacity (config rl)).
    { unfold t2. destruct (Z.ltb_spec (capacity (config rl)) t); lia. }
    destruct (Z.ltb_spec 0 t2).
    + exists (wrap64 (t2 - 1)). cbn [fst snd visitors set_visitors].
      rewrite lookup_insert_eq, wrap64_id by lia.
      split; [reflexivity |]. split; [intros _; lia | discriminate].
    + exists t2. cbn [fst snd visitors set_visitors]. rewrite lookup_insert_eq.
      split; [reflexivity |]. split; [discriminate | intros _; split; [lia | discriminate]].
  - rewrite (allow_first rl ip now Hv). exists (capacity (config rl) - 1).
    unfold store. cbn [fst snd visitors set_visitors]. rewrite lookup_insert_eq.
    split; [reflexivity |]. split; [intros _; lia | discriminate].
Qed.

Definition tokens_capped (rl : RateLimiter) : Prop :=
  forall ip v, visitors rl !! ip = Some v -> tokens v <= capacity (config rl).

Lemma rl_step_config rl op : config (rl_step rl op) = config rl.
Proof. destruct op; simpl; [apply allow_config | reflexivity]. Qed.

Lemma rl_step_capped rl op :
  config_in_range (config rl) -> tokens_capped rl -> tokens_capped (rl_step rl op).
Proof.
  intros Hcfg Hcap ip' v' Hv'. rewrite rl_step_config.
  destruct op as [ip now | now]; simpl in Hv'.
  - destruct (decide (ip = ip')) as [<- | Hne].
    + destruct (allow_outcome rl ip now Hcfg) as (count & Hst & Hyes & Hno).
      rewrite Hst in Hv'. inversion Hv'; subst v'; simpl.
      pose proof (capacity_pos (config rl)).
      destruct (fst (allow rl ip now)); [specialize (Hyes eq_refl) | specialize (Hno eq_refl)]; lia.
    + rewrite allow_other in Hv' by assumption. exact (Hcap _ _ Hv').
  - apply map_lookup_filter_Some in Hv'. exact (Hcap _ _ (proj1 Hv')).
Qed.

(** The upper bound of the tokens is kept by every run of calls and
    sweeps, at any times and for any rate, negative ones included: no
    visitor ever holds more tokens than the capacity. *)
Theorem tokens_never_above_capacity cfg ops :
  config_in_range cfg ->
  tokens_capped (rl_run (NewRateLimiter cfg) ops).
Proof.
  intros Hcfg. unfold rl_run.
  assert (Hgen : forall rl, config_in_range (config rl) -> tokens_capped rl ->
                            tokens_capped (fold_left rl_step ops rl)).
  { induction ops as [| op ops IH]; intros rl Hc Hcap; [exact Hcap |].
    simpl. apply IH; [now rewrite rl_step_config | now apply rl_step_capped]. }
  apply Hgen; [exact Hcfg |].
  intros ip v Hv. simpl in Hv. rewrite lookup_empty in Hv. discriminate.
Qed.

Lemma tokens_never_above_capacity_witness :
  tokens_capped (rl_run (NewRateLimiter negative_rate)
                        [OpAllow "192.168.1.100" 0; OpSweep 5;
                         OpAllow "192.168.1.100" (2 * GoTime.Minute)]).
Proof.
  apply (tokens_never_above_capacity negative_rate); split; reflexivity.
Defined.

(** A granted request leaves its key between 0 and [capacity - 1] tokens; a
    refused one leaves it at 0 or below; both set [lastSeen]. So the
    tokens of a key are negative only after a refused request. *)
Theorem allow_result_and_tokens rl ip now :
  config_in_range (config rl) ->
  exists count,
    visitors (snd (allow rl ip now)) !! ip = Some {| lastSeen := now; tokens := count |}
    /\ (fst (allow rl ip now) = true -> 0 <= count <= capacity (config rl) - 1)
    /\ (fst (allow rl ip now) = false -> count <= 0 /\ visitors rl !! ip <> None).
Proof. apply allow_outcome. Qed.

Lemma allow_result_and_tokens_witness :
  exists count,
    visitors (snd (allow seen_once "192.168.1.100" (2 * GoTime.Minute))) !! "192.168.1.100"
    = Some {| lastSeen := 2 * GoTime.Minute; tokens := count |}
    /\ (fst (allow seen_once "192.168.1.100" (2 * GoTime.Minute)) = true ->
        0 <= count <= capacity (config seen_once) - 1)
    /\ (fst (allow seen_once "192.168.1.100" (2 * GoTime.Minute)) = false ->
        count <= 0 /\ visitors seen_once !! "192.168.1.100" <> None).
Proof.
  apply (allow_result_and_tokens seen_once "192.168.1.100" (2 * GoTime.Minute)).
  split; reflexivity.
Defined.

(** The state of a key whose last call was at [now], called again at [now]. *)
Lemma allow_same_instant rl ip now count :
  config_in_range (config rl) ->
  visitors rl !! ip = Some {| lastSeen := now; tokens := count |} ->
  0 <= count <= capacity (config rl) ->
  allow rl ip now =
  if 0 <? count then (true, store rl ip now (count - 1)) else (false, store rl ip now count).
Proof.
  intros Hcfg Hv Hcount. pose proof (capacity_in_range _ Hcfg) as Hc.
  assert (Hmax : max_int = 2 ^ 63 - 1) by reflexivity.
  assert (Hmin : min_int = - 2 ^ 63) by reflexivity.
  unfold allow, store. rewrite Hv. cbn [lastSeen tokens].
  rewrite Sub_same, tokensToAdd_no_time by apply Hcfg.
  rewrite Z.add_0_r, wrap64_id by lia.
  destruct (Z.ltb_spec (capacity (config rl)) count); [lia |].
  destruct (Z.ltb_spec 0 count); [| reflexivity].
  rewrite wrap64_id by lia. reflexivity.
Qed.

Lemma store_config rl ip seen count : config (store rl ip seen count) = config rl.
Proof. reflexivity. Qed.

Lemma store_lookup rl ip seen count :
  visitors (store rl ip seen count) !! ip = Some {| lastSeen := seen; tokens := count |}.
Proof. unfold store. simpl. apply lookup_insert_eq. Qed.

Lemma answers_same_instant n : forall rl ip now count,
  config_in_range (config rl) ->
  visitors rl !! ip = Some {| lastSeen := now; tokens := count |} ->
  0 <= count <= capacity (config rl) ->
  answers_of rl (repeat (ip, now) n)
  = repeat true (Nat.min n (Z.to_nat count)) ++ repeat false (n - Z.to_nat count).
Proof.
  induction n as [| n IH]; intros rl ip now count Hcfg Hv Hcount; [reflexivity |].
  cbn [repeat answers_of]. rewrite (allow_same_instant rl ip now count Hcfg Hv Hcount).
  destruct (Z.ltb_spec 0 count).
  - rewrite (IH (store rl ip now (count - 1)) ip now (count - 1));
      [| exact Hcfg | apply store_lookup | rewrite store_config; lia].
    replace (Z.to_nat count) with (S (Z.to_nat (count - 1))) by lia.
    reflexivity.
  - rewrite (IH (store rl ip now count) ip now count);
      [| exact Hcfg | apply store_lookup | rewrite store_config; lia].
    replace (Z.to_nat count) with 0%nat by lia.
    rewrite !Nat.min_0_r, !Nat.sub_0_r. reflexivity.
Qed.

(** A burst is exactly the capacity: of [n] calls for one key at one
    instant, on a limiter that has not seen the key, the first
    [capacity] are allowed and all the others refused; for every
    configuration. *)
Theorem burst_is_capacity cfg ip now n :
  config_in_range cfg ->
  answers_of (NewRateLimiter cfg) (repeat (ip, now) n)
  = repeat true (Nat.min n (Z.to_nat (capacity cfg)))
    ++ repeat false (n - Z.to_nat (capacity cfg)).
Proof.
  intros Hcfg. pose proof (capacity_in_range _ Hcfg) as Hc.
  destruct n as [| n]; [reflexivity |].
  cbn [repeat answers_of].
  rewrite allow_first by apply lookup_empty.
  rewrite (answers_same_instant n _ ip now (capacity cfg - 1));
    [| exact Hcfg | apply store_lookup | simpl; lia].
  cbn [config NewRateLimiter].
  replace (Z.to_nat (capacity cfg)) with (S (Z.to_nat (capacity cfg - 1))) by lia.
  reflexivity.
Qed.

Lemma burst_is_capacity_witness :
  answers_of (NewRateLimiter burst_two) (repeat ("192.168.1.100", 7) 5)
  = repeat true (Nat.min 5 (Z.to_nat (capacity burst_two)))
    ++ repeat false (5 - Z.to_nat (capacity burst_two)).
Proof.
  apply (burst_is_capacity burst_two "192.168.1.100" 7 5). split; reflexivity.
Defined.

(** The times of a run of calls for one key each of which comes too soon
    after the one before for the refill to reach one token. *)
Fixpoint too_soon (cfg : RateLimitConfig) (last : Z) (times : list Z) : Prop :=
  match times with
  | [] => True
  | now :: rest => tokensToAdd cfg (GoTime.Sub now last) = 0 /\ too_soon cfg now rest
  end.

(** A client out of tokens that keeps calling is refused for ever: every
    call, refused ones too, sets [lastSeen], and the part of a token earned
    since is dropped by the conversion to [int]. At 10 requests a minute a
    client that retries every 5 seconds never gets another request
    through. *)
Theorem retries_starve times : forall rl ip last,
  visitors rl !! ip = Some {| lastSeen := last; tokens := 0 |} ->
  too_soon (config rl) last times ->
  answers_of rl (map (fun now => (ip, now)) times) = repeat false (length times).
Proof.
  induction times as [| now times IH]; intros rl ip last Hv Hsoon; [reflexivity |].
  destruct Hsoon as [Hadd Hsoon].
  pose proof (capacity_pos (config rl)) as Hc.
  assert (Hallow : allow rl ip now = (false, store rl ip now 0)).
  { unfold allow, store. rewrite Hv. cbn [lastSeen tokens]. rewrite Hadd.
    change (wrap64 (0 + 0)) with 0.
    destruct (Z.ltb_spec (capacity (config rl)) 0); [lia | reflexivity]. }
  cbn [map answers_of length repeat]. rewrite Hallow. f_equal.
  apply (IH _ ip now); [apply store_lookup | exact Hsoon].
Qed.

Definition ten_a_minute : RateLimitConfig :=
  {| RL_Enabled := true; RequestsPerIP := 10; BurstSize := 1 |}.

Lemma retries_starve_witness :
  answers_of (snd (allow (NewRateLimiter ten_a_minute) "10.0.0.1" 0))
             (map (fun now => ("10.0.0.1", now))
                  [5 * GoTime.Second; 10 * GoTime.Second; 15 * GoTime.Second;
                   20 * GoTime.Second])
  = repeat false 4.
Proof.
  apply (retries_starve [5 * GoTime.Second; 10 * GoTime.Second; 15 * GoTime.Second;
                         20 * GoTime.Second]
                        (snd (allow (NewRateLimiter ten_a_minute) "10.0.0.1" 0))
                        "10.0.0.1" 0).
  - vm_compute. reflexivity.
  - vm_compute. repeat split; reflexivity.
Defined.

(** A sweep keeps the visitors seen in the last three minutes as they are
    and forgets the others; a forgotten client starts again with a full
    burst, whatever the rate would have refilled. *)
Theorem sweep_forgets_stale rl ip v now :
  visitors rl !! ip = Some v ->
  visitors (cleanupVisitors rl now) !! ip = (if stale now v then None else Some v)
  /\ (stale now v = true ->
      forall later,
        allow (cleanupVisitors rl now) ip later
        = (true, store (cleanupVisitors rl now) ip later (capacity (config rl) - 1))).
Proof.
  intros Hv.
  assert (Hlook : visitors (cleanupVisitors rl now) !! ip = (if stale now v then None else Some v)).
  { unfold cleanupVisitors. cbn [visitors set_visitors].
    destruct (stale now v) eqn:Hst.
    - apply map_lookup_filter_None. right. intros v' Hv'. simpl.
      rewrite Hv in Hv'. inversion Hv'; subst. rewrite Hst. discriminate.
    - apply map_lookup_filter_Some. split; [exact Hv | exact Hst]. }
  split; [exact Hlook |].
  intros Hst later. rewrite Hst in Hlook.
  now rewrite (allow_first _ ip later Hlook).
Qed.

Lemma sweep_forgets_stale_witness :
  visitors (cleanupVisitors seen_once (4 * GoTime.Minute)) !! "192.168.1.100" = None.
Proof.
  apply (proj1 (sweep_forgets_stale seen_once "192.168.1.100" {| lastSeen := 0; tokens := 4 |}
                  (4 * GoTime.Minute) eq_refl)).
Defined.

(** ** The client key *)

(** [s] has none of the bytes of [cutset]. *)
Definition free_of (cutset s : string) : Prop :=
  Forall (fun c => ~ In c (to_bytes cutset)) (to_bytes s).

Lemma to_bytes_app a b : to_bytes (a +:+ b) = to_bytes a ++ to_bytes b.
Proof. induction a as [| c a IH]; simpl; [reflexivity | now rewrite IH]. Qed.

Lemma index_byte_none s c : ~ In c s -> GoStrings.index_byte s c = None.
Proof.
  induction s as [| x s IH]; intros Hc; [reflexivity |].
  simpl. destruct (Ascii.eqb_spec x c) as [-> | _]; [exfalso; apply Hc; now left |].
  rewrite IH; [reflexivity | intros H; apply Hc; now right].
Qed.

Lemma index_byte_app a c b :
  ~ In c a -> GoStrings.index_byte (a ++ c :: b) c = Some (length a).
Proof.
  induction a as [| x a IH]; intros Hc; simpl.
  - now rewrite Ascii.eqb_refl.
  - destruct (Ascii.eqb_spec x c) as [-> | _]; [exfalso; apply Hc; now left |].
    rewrite IH; [reflexivity | intros H; apply Hc; now right].
Qed.

Lemma last_index_byte_none s c : ~ In c s -> GoStrings.last_index_byte s c = None.
Proof.
  induction s as [| x s IH]; intros Hc; [reflexivity |].
  simpl. rewrite IH by (intros H; apply Hc; now right).
  destruct (Ascii.eqb_spec x c) as [-> | _]; [exfalso; apply Hc; now left | reflexivity].
Qed.

Lemma last_index_byte_app a c b :
  ~ In c b -> GoStrings.last_index_byte (a ++ c :: b) c = Some (length a).
Proof.
  intros Hc. induction a as [| x a IH]; simpl.
  - now rewrite last_index_byte_none, Ascii.eqb_refl.
  - now rewrite IH.
Qed.

Lemma trim_left_keep s cutset :
  (forall c, hd_error s = Some c -> ~ In c cutset) -> GoStrings.trim_left s cutset = s.
Proof.
  destruct s as [| c s]; [reflexivity |]. intros H. simpl.
  destruct (GoStrings.in_cutset cutset c) eqn:Hin; [| reflexivity].
  exfalso. apply (H c eq_refl). unfold GoStrings.in_cutset in Hin.
  apply existsb_exists in Hin. destruct Hin as (x & Hx & Heq).
  apply Ascii.eqb_eq in Heq. now subst.
Qed.

Lemma trim_left_cons_in c s cutset :
  In c cutset -> GoStrings.trim_left (c :: s) cutset = GoStrings.trim_left s cutset.
Proof.
  intros Hin. simpl.
  replace (GoStrings.in_cutset cutset c) with true; [reflexivity |].
  symmetry. apply existsb_exists. exists c. split; [exact Hin | apply Ascii.eqb_refl].
Qed.

Lemma free_of_spec cutset s c :
  free_of cutset s -> In c (to_bytes s) -> ~ In c (to_bytes cutset).
Proof.
  unfold free_of. rewrite Forall_forall. intros H Hin. apply H. now apply list_elem_of_In.
Qed.

Lemma trim_free s : free_of "[]" s -> GoStrings.Trim s "[]" = s.
Proof.
  intros Hfree. unfold GoStrings.Trim.
  rewrite trim_left_keep.
  - unfold GoStrings.trim_right. rewrite trim_left_keep.
    + now rewrite rev_involutive, of_to_bytes.
    + intros c Hc. apply (free_of_spec _ s c Hfree).
      apply in_rev. destruct (rev (to_bytes s)); inversion Hc; subst. now left.
  - intros c Hc. apply (free_of_spec _ s c Hfree).
    destruct (to_bytes s); inversion Hc; subst. now left.
Qed.

Lemma hd_app_cons (a : bytes) c b d : hd d (a ++ c :: b) = hd c a.
Proof. now destruct a. Qed.

Lemma split_host_port_plain host port :
  ~ In ":"%char host -> ~ In "["%char host -> ~ In "]"%char host ->
  ~ In ":"%char port -> ~ In "["%char port -> ~ In "]"%char port ->
  GoNet.split_host_port (host ++ ":"%char :: port) = inl (host, port).
Proof.
  intros Hc Hl Hr Hpc Hpl Hpr. unfold GoNet.split_host_port.
  rewrite last_index_byte_app by assumption.
  assert (Hhd : Ascii.eqb (hd "000"%char (host ++ ":"%char :: port)) "["%char = false).
  { rewrite hd_app_cons. destruct host as [| c host]; [reflexivity |].
    simpl. apply Ascii.eqb_neq. intros ->. apply Hl. now left. }
  rewrite Hhd.
  rewrite firstn_app, Nat.sub_diag, firstn_all. simpl firstn. rewrite app_nil_r.
  rewrite (index_byte_none host) by assumption. simpl GoNet.found.
  cbn [skipn].
  rewrite !index_byte_none; simpl GoNet.found.
  - replace (length host + 1)%nat with (length (host ++ [":"%char]))
      by (rewrite length_app; reflexivity).
    change (host ++ ":"%char :: port) with (host ++ [":"%char] ++ port).
    rewrite app_assoc, skipn_app, Nat.sub_diag, skipn_all. reflexivity.
  - intros H. apply in_app_or in H. destruct H as [H | [H | H]];
      [contradiction | discriminate | contradiction].
  - intros H. apply in_app_or in H. destruct H as [H | [H | H]];
      [contradiction | discriminate | contradiction].
Qed.

Lemma split_host_port_bracketed host port :
  ~ In "["%char host -> ~ In "]"%char host ->
  ~ In ":"%char port -> ~ In "["%char port -> ~ In "]"%char port ->
  GoNet.split_host_port ("["%char :: host ++ "]"%char :: ":"%char :: port) = inl (host, port).
Proof.
  intros Hl Hr Hpc Hpl Hpr. unfold GoNet.split_host_port.
  replace ("["%char :: host ++ "]"%char :: ":"%char :: port)
    with (("["%char :: host ++ ["]"%char]) ++ ":"%char :: port)
    by (simpl; now rewrite <- app_assoc).
  rewrite last_index_byte_app by assumption.
  cbn [hd app]. rewrite Ascii.eqb_refl.
  replace ("["%char :: (host ++ ["]"%char]) ++ ":"%char :: port)
    with (("["%char :: host) ++ "]"%char :: ":"%char :: port)
    by (simpl; now rewrite <- app_assoc).
  rewrite index_byte_app by (intros [H | H]; [discriminate | contradiction]).
  cbn [length]. rewrite !length_app. cbn [length].
  destruct (Nat.eqb_spec (S (length host) + 1) (S (length host) + S (S (length port))));
    [lia |].
  replace (S (length host + 1)) with (S (length host) + 1)%nat by lia.
  rewrite Nat.eqb_refl.
  (* the host between the brackets *)
  assert (Hslice : GoNet.slice (("["%char :: host) ++ "]"%char :: ":"%char :: port)
                               1 (S (length host)) = host).
  { unfold GoNet.slice. cbn [app skipn]. rewrite skipn_O.
    replace (S (length host) - 1)%nat with (length host) by lia.
    now rewrite firstn_app, Nat.sub_diag, firstn_all, app_nil_r. }
  rewrite Hslice.
  set (rest := "]"%char :: ":"%char :: port).
  assert (Hskip : forall k, skipn (S (length host) + k) (("["%char :: host) ++ rest)
                            = skipn k rest).
  { intros k. rewrite skipn_app, skipn_all2 by (simpl; lia).
    replace (S (length host) + k - length ("["%char :: host))%nat with k by (simpl; lia).
    reflexivity. }
  replace (S (length host) + 1 + 1)%nat with (S (length host) + 2)%nat by lia.
  rewrite !Hskip.
  change (skipn 1 (("["%char :: host) ++ rest)) with (skipn 0 (host ++ rest)).
  rewrite skipn_O. subst rest. cbn [skipn].
  rewrite (index_byte_none (host ++ _)).
  2:{ intros H. apply in_app_or in H. destruct H as [H | [H | [H | H]]];
        [contradiction | discriminate | discriminate | contradiction]. }
  rewrite index_byte_none; [reflexivity |].
  intros [H | H]; [discriminate | contradiction].
Qed.

Lemma free_of_not_in cutset s c : free_of cutset s -> In c (to_bytes cutset) -> ~ In c (to_bytes s).
Proof. intros Hfree Hc Hin. exact (free_of_spec _ _ _ Hfree Hin Hc). Qed.

Lemma clientIP_is_host_plain host port :
  free_of ":" host -> free_of ":[]" port -> free_of "[]" host ->
  clientIP (host +:+ ":" +:+ port) = host.
Proof.
  intros Hc Hp Hh.
  unfold clientIP, GoNet.SplitHostPort. rewrite !to_bytes_app.
  change (to_bytes ":" ++ to_bytes port) with (":"%char :: to_bytes port).
  rewrite split_host_port_plain;
    [apply of_to_bytes
    | apply (free_of_not_in ":") | apply (free_of_not_in "[]") | apply (free_of_not_in "[]")
    | apply (free_of_not_in ":[]") | apply (free_of_not_in ":[]")
    | apply (free_of_not_in ":[]")]; simpl; auto.
Qed.

(** The client key is the host of the remote address in all its forms:
    [host:port], [[host]:port] for an IPv6 host, and either without a
    port. Requests of one host share one key, whatever their ports. *)
Theorem clientIP_is_host host port :
  free_of "[]" host -> free_of ":[]" port ->
  (free_of ":" host -> clientIP (host +:+ ":" +:+ port) = host)
  /\ clientIP ("[" +:+ host +:+ "]:" +:+ port) = host
  /\ (free_of ":" host -> clientIP host = host)
  /\ clientIP ("[" +:+ host +:+ "]") = host.
Proof.
  intros Hh Hp.
  assert (Hhl : ~ In "["%char (to_bytes host)) by (apply (free_of_not_in "[]"); simpl; auto).
  assert (Hhr : ~ In "]"%char (to_bytes host)) by (apply (free_of_not_in "[]"); simpl; auto).
  assert (Hpc : ~ In ":"%char (to_bytes port)) by (apply (free_of_not_in ":[]"); simpl; auto).
  assert (Hpl : ~ In "["%char (to_bytes port)) by (apply (free_of_not_in ":[]"); simpl; auto).
  assert (Hpr : ~ In "]"%char (to_bytes port)) by (apply (free_of_not_in ":[]"); simpl; auto).
  split; [| split; [| split]].
  - intros Hc. now apply clientIP_is_host_plain.
  - unfold clientIP, GoNet.SplitHostPort. rewrite !to_bytes_app.
    change (to_bytes "[" ++ to_bytes host ++ to_bytes "]:" ++ to_bytes port)
      with ("["%char :: to_bytes host ++ "]"%char :: ":"%char :: to_bytes port).
    rewrite split_host_port_bracketed by assumption. apply of_to_bytes.
  - intros Hc.
    assert (Hhc : ~ In ":"%char (to_bytes host)) by (apply (free_of_not_in ":"); simpl; auto).
    unfold clientIP, GoNet.SplitHostPort, GoNet.split_host_port.
    rewrite last_index_byte_none by assumption. now apply trim_free.
  - assert (Herr : exists why, GoNet.split_host_port (to_bytes ("[" +:+ host +:+ "]")) = inr why).
    { rewrite !to_bytes_app.
      change (to_bytes "[" ++ to_bytes host ++ to_bytes "]")
        with ("["%char :: to_bytes host ++ ["]"%char]).
      unfold GoNet.split_host_port.
      destruct (GoStrings.last_index_byte _ ":"%char) as [i |]; [| eauto].
      cbn [hd]. rewrite Ascii.eqb_refl.
      change ("["%char :: to_bytes host ++ ["]"%char])
        with (("["%char :: to_bytes host) ++ "]"%char :: []).
      rewrite index_byte_app by (intros [H | H]; [discriminate | contradiction]).
      rewrite length_app. cbn [length]. rewrite Nat.eqb_refl. eauto. }
    destruct Herr as [why Herr].
    unfold clientIP, GoNet.SplitHostPort. rewrite Herr.
    unfold GoStrings.Trim. rewrite !to_bytes_app.
    change (to_bytes "[" ++ to_bytes host ++ to_bytes "]")
      with ("["%char :: to_bytes host ++ ["]"%char]).
    change (to_bytes "[]") with ["["%char; "]"%char].
    set (hb := to_bytes host) in *.
    assert (Hcut : forall c, In c hb -> ~ In c ["["%char; "]"%char]).
    { intros c Hin [<- | [<- | []]]; contradiction. }
    rewrite trim_left_cons_in by (now left).
    destruct hb as [| x h] eqn:Hhost.
    + rewrite <- (of_to_bytes host). fold hb. rewrite Hhost. reflexivity.
    + rewrite <- Hhost in *. 
      rewrite trim_left_keep.
      2:{ intros c Hc. apply Hcut. rewrite Hhost in *. inversion Hc; subst. now left. }
      unfold GoStrings.trim_right. rewrite rev_app_distr.
      change (rev ["]"%char] ++ rev hb) with ("]"%char :: rev hb).
      rewrite trim_left_cons_in by (right; now left).
      rewrite trim_left_keep.
      * rewrite rev_involutive. apply of_to_bytes.
      * intros c Hc. apply Hcut, in_rev. destruct (rev hb); inversion Hc; subst. now left.
Qed.

Lemma clientIP_is_host_witness :
  (free_of ":" "2001:db8::1" -> clientIP ("2001:db8::1" +:+ ":" +:+ "443") = "2001:db8::1")
  /\ clientIP ("[" +:+ "2001:db8::1" +:+ "]:" +:+ "443") = "2001:db8::1"
  /\ (free_of ":" "2001:db8::1" -> clientIP "2001:db8::1" = "2001:db8::1")
  /\ clientIP ("[" +:+ "2001:db8::1" +:+ "]") = "2001:db8::1".
Proof.
  apply (clientIP_is_host "2001:db8::1" "443").
  - repeat constructor; intros [H | [H | []]]; discriminate.
  - repeat constructor; intros [H | [H | [H | []]]]; discriminate.
Defined.

(** ** The rate-limit middleware *)

(** [RateLimitMiddleware(limiter)]: all requests share the limiter, so the
    handler takes the limiter as the request finds it, with the time [now]
    that [allow] reads, and returns it as the request leaves it. [None] is
    the [nil] limiter. *)
Definition RateLimitMiddleware (limiter : option RateLimiter) (now : Z) (next : Handler)
           (r : Request) (w : ResponseWriter) : ResponseWriter * option RateLimiter :=
  match limiter with
  | None => (next r w, None)
  | Some rl =>
    if negb (RL_Enabled (config rl)) then (next r w, Some rl)
    else
      let ip := clientIP (RemoteAddr r) in
      let '(ok, rl') := allow rl ip now in
      if negb ok then (Error w "429 Too Many Requests" StatusTooManyRequests, Some rl')
      else (next r w, Some rl')
  end.

(** The responses to a run of requests, each on a writer like [w], and the
    limiter after them. *)
Fixpoint serve_limited (limiter : option RateLimiter) (next : Handler) (w : ResponseWriter)
         (calls : list (Request * Z)) : list ResponseWriter * option RateLimiter :=
  match calls with
  | [] => ([], limiter)
  | (r, now) :: rest =>
    let '(w', limiter') := RateLimitMiddleware limiter now next r w in
    let '(ws, limiter'') := serve_limited limiter' next w rest in
    (w' :: ws, limiter'')
  end.

Definition limiter_off (limiter : option RateLimiter) : Prop :=
  match limiter with
  | None => True
  | Some rl => RL_Enabled (config rl) = false
  end.

Definition too_many (w : ResponseWriter) : ResponseWriter :=
  Error w "429 Too Many Requests" StatusTooManyRequests.

Lemma serve_limited_known ports : forall rl next w host now count,
  RL_Enabled (config rl) = true -> config_in_range (config rl) ->
  free_of ":[]" host -> Forall (free_of ":[]") ports ->
  visitors rl !! host = Some {| lastSeen := now; tokens := count |} ->
  0 <= count <= capacity (config rl) ->
  let reqs := map (fun port => request_at (host +:+ ":" +:+ port)) ports in
  fst (serve_limited (Some rl) next w (map (fun r => (r, now)) reqs))
  = map (fun r => next r w) (firstn (Z.to_nat count) reqs)
    ++ map (fun _ => too_many w) (skipn (Z.to_nat count) reqs).
Proof.
  induction ports as [| port ports IH]; intros rl next w host now count Hon Hcfg Hh Hp Hv Hc reqs.
  { subst reqs. simpl. now rewrite firstn_nil, skipn_nil. }
  inversion Hp as [| ? ? Hport Hports]; subst.
  assert (Hfree : forall cs, (forall c, In c (to_bytes cs) -> In c (to_bytes ":[]")) ->
                             free_of cs host).
  { intros cs Hsub. unfold free_of in *. eapply Forall_impl; [exact Hh |].
    intros c Hc' Hin. apply Hc'. now apply Hsub. }
  assert (Hkey : clientIP (host +:+ ":" +:+ port) = host).
  { apply (clientIP_is_host_plain host port); [| exact Hport |].
    - apply Hfree. simpl. intuition.
    - apply Hfree. simpl. intuition. }
  subst reqs. cbn [map serve_limited]. unfold RateLimitMiddleware at 1.
  rewrite Hon. cbn [negb]. unfold request_at at 1. cbn [RemoteAddr]. rewrite Hkey.
  rewrite (allow_same_instant rl host now count Hcfg Hv Hc).
  destruct (Z.ltb_spec 0 count) as [Hpos | Hzero].
  - cbn [negb].
    specialize (IH (store rl host now (count - 1)) next w host now (count - 1)
                   Hon Hcfg Hh Hports (store_lookup _ _ _ _)).
    rewrite store_config in IH. specialize (IH ltac:(lia)). cbn zeta in IH.
    destruct (serve_limited _ next w _) as [ws lim]. cbn [fst] in *. rewrite IH.
    replace (Z.to_nat count) with (S (Z.to_nat (count - 1))) by lia.
    reflexivity.
  - cbn [negb].
    specialize (IH (store rl host now count) next w host now count
                   Hon Hcfg Hh Hports (store_lookup _ _ _ _)).
    rewrite store_config in IH. specialize (IH Hc). cbn zeta in IH.
    destruct (serve_limited _ next w _) as [ws lim]. cbn [fst] in *. rewrite IH.
    replace (Z.to_nat count) with 0%nat by lia. reflexivity.
Qed.


